(** * AOP: method wrapping with before / after / handle / around advice

    A shallow embedding of [src/aop.js].  The library mutates one slot of a
    target object and installs a closure there, so the model has a heap of
    objects, function objects with captured variables, and an interpreter
    for calls.  Code supplied by the user of the library (the advice, the
    original method) is arbitrary: it is a table of programs over the
    operations a JavaScript function body can perform on the heap. *)

From Stdlib Require Import Ascii.
From stdpp Require Import gmap strings list fin_maps pretty.

Open Scope string_scope.
Open Scope list_scope.

(** ** Values and objects

    Numbers are the integers; a method name is a primitive value, as the
    conversion of an object to a property key would run code of the
    user. *)

Abbreviation loc := nat.

Inductive prim : Type :=
  | PUndefined
  | PNull
  | PBool (b : bool)
  | PNum (n : Z)
  | PString (s : string).

Inductive value : Type :=
  | VPrim (p : prim)
  | VRef (l : loc).

Coercion VPrim : prim >-> value.

Abbreviation VUndefined := (VPrim PUndefined).
Abbreviation VNull := (VPrim PNull).
Abbreviation VString s := (VPrim (PString s)).
Abbreviation VNum n := (VPrim (PNum n)).
Abbreviation VBool b := (VPrim (PBool b)).

Global Instance prim_eq_dec : EqDecision prim.
Proof. solve_decision. Defined.
Global Instance value_eq_dec : EqDecision value.
Proof. solve_decision. Defined.

(** The body of a function object.  [Native id] is code written by the user
    of the library, found in a table of programs.  The other four are the
    anonymous functions that [before], [after], [handle] and [around]
    create; their arguments are the captured variables [old] and [fun]. *)
Inductive code : Type :=
  | Native (id : nat)
  | BeforeWrapper (old fun_ : value)
  | AfterWrapper (old fun_ : value)
  | HandleWrapper (old fun_ : value)
  | AroundWrapper (old fun_ : value).

Inductive class : Type :=
  | Ordinary
  | ArrayC
  | ArgumentsC
  | ErrorC (name : string)
  | FunctionC (c : code).

(** An object has a class, own data properties and a prototype link.
    The elements of an array or of an arguments object are the properties
    named by the decimal indices, next to ["length"]. *)
Record object : Type := Object {
  cls : class;
  props : gmap string value;
  proto : option loc
}.

Abbreviation heap := (list object).

(** One entry per invocation of a function object. *)
Inductive event : Type :=
  | Called (f this : value) (args : list value).

Record state : Type := State {
  heap_of : heap;
  trace : list event
}.

Inductive completion : Type :=
  | Return (v : value)
  | Throw (e : value).

Definition result : Type := completion * state.

(** ** Host operations *)

Inductive type_name : Type :=
  | TUndefined | TObject | TBoolean | TNumber | TString | TFunction.

Global Instance type_name_eq_dec : EqDecision type_name.
Proof. solve_decision. Defined.

(** [typeof v].  A reference always points into the heap; one that does
    not counts as an object without members. *)
Definition typeof (h : heap) (v : value) : type_name :=
  match v with
  | VPrim PUndefined => TUndefined
  | VPrim PNull => TObject
  | VPrim (PBool _) => TBoolean
  | VPrim (PNum _) => TNumber
  | VPrim (PString _) => TString
  | VRef l =>
      match h !! l with
      | Some (Object (FunctionC _) _ _) => TFunction
      | _ => TObject
      end
  end.

(** [!v] is [negb (truthy v)] *)
Definition truthy (p : prim) : bool :=
  match p with
  | PUndefined | PNull => false
  | PBool b => b
  | PNum n => negb (Z.eqb n 0)
  | PString s => negb (String.eqb s EmptyString)
  end.

(** The property key a primitive converts to in [obj[p]]. *)
Definition to_key (p : prim) : string :=
  match p with
  | PUndefined => "undefined"
  | PNull => "null"
  | PBool true => "true"
  | PBool false => "false"
  | PNum n => pretty n
  | PString s => s
  end.

(** Property lookup follows the prototype chain; a chain is never longer
    than the heap. *)
Fixpoint lookup_chain (n : nat) (h : heap) (l : loc) (k : string) : value :=
  match h !! l with
  | None => VUndefined
  | Some o =>
      match props o !! k with
      | Some v => v
      | None =>
          match proto o, n with
          | Some p, S n' => lookup_chain n' h p k
          | _, _ => VUndefined
          end
      end
  end.

(** [obj[k]]: [None] stands for the TypeError of dereferencing [null] or
    [undefined].  The members of boxed primitives are not modelled; the
    library never reads them, as [check] rejects such targets first. *)
Definition get_member (h : heap) (obj : value) (k : string) : option value :=
  match obj with
  | VRef l => Some (lookup_chain (length h) h l k)
  | VPrim PUndefined | VPrim PNull => None
  | VPrim _ => Some VUndefined
  end.

Definition set_prop (k : string) (v : value) (o : object) : object :=
  Object (cls o) (<[k:=v]> (props o)) (proto o).

(** [l[k] = v] on an object reference: writes an own property. *)
Definition store (l : loc) (k : string) (v : value) (σ : state) : state :=
  State (alter (set_prop k v) l (heap_of σ)) (trace σ).

Definition alloc (o : object) (σ : state) : loc * state :=
  (length (heap_of σ), State (heap_of σ ++ [o]) (trace σ)).

Definition log (e : event) (σ : state) : state :=
  State (heap_of σ) (trace σ ++ [e]).

Definition function_code (h : heap) (f : value) : option code :=
  match f with
  | VRef l =>
      match h !! l with
      | Some (Object (FunctionC c) _ _) => Some c
      | _ => None
      end
  | VPrim _ => None
  end.

(** [v instanceof Array] *)
Definition instanceof_Array (h : heap) (v : value) : bool :=
  match v with
  | VRef l =>
      match h !! l with
      | Some (Object ArrayC _ _) => true
      | _ => false
      end
  | VPrim _ => false
  end.

(** The properties of an array-like holding the list [vs]. *)
Fixpoint index_props (i : nat) (vs : list value) : gmap string value :=
  match vs with
  | [] => ∅
  | v :: vs' => <[pretty i := v]> (index_props (S i) vs')
  end.

Definition array_like_props (vs : list value) : gmap string value :=
  <["length" := VNum (Z.of_nat (length vs))]> (index_props 0 vs).

(** The [arguments] object of an activation. *)
Definition arguments_object (vs : list value) : object :=
  Object ArgumentsC (array_like_props vs) None.

Definition array_object (vs : list value) : object :=
  Object ArrayC (array_like_props vs) None.

(** The list [Function.prototype.apply] reads out of its second argument:
    [length], then the elements at the indices below it. *)
Definition array_like_length (h : heap) (l : loc) : nat :=
  match lookup_chain (length h) h l "length" with
  | VPrim (PNum n) => Z.to_nat n
  | _ => 0%nat
  end.

Definition list_from_array_like (h : heap) (a : value) : list value :=
  match a with
  | VRef l =>
      (λ i : nat, lookup_chain (length h) h l (pretty i))
        <$> seq 0 (array_like_length h l)
  | VPrim _ => []
  end.

(** A TypeError raised by the host: a fresh error object is thrown. *)
Definition throw_type_error (σ : state) : result :=
  let '(l, σ') := alloc (Object (ErrorC "TypeError") ∅ None) σ in
  (Throw (VRef l), σ').

Global Arguments alloc : simpl never.
Global Arguments log : simpl never.
Global Arguments store : simpl never.
Global Arguments throw_type_error : simpl never.

(** ** User code

    The body of a function that is not part of the library is a program
    over the operations of the host: finish with a completion, invoke a
    function, look at the heap, write a property, create an object.  It
    cannot rewrite the class of an existing object (so the code of a
    function object is fixed once created), and it never sees the trace. *)
Inductive prog : Type :=
  | Done (c : completion)
  | Invoke (f this : value) (args : list value) (k : completion → prog)
  | Inspect (k : heap → prog)
  | Store (l : loc) (key : string) (v : value) (k : prog)
  | New (o : object) (k : loc → prog).

Definition outcome : Type := option result.

Definition caller : Type := value → value → list value → state → outcome.

(** Running a program, given the way function calls are resolved.  A call
    that runs out of fuel ([None]) ends the program without a result. *)
Fixpoint run (callf : caller) (p : prog) (σ : state) : outcome :=
  match p with
  | Done c => Some (c, σ)
  | Invoke f this args k =>
      match callf f this args σ with
      | Some (c, σ') => run callf (k c) σ'
      | None => None
      end
  | Inspect k => run callf (k (heap_of σ)) σ
  | Store l key v k => run callf k (store l key v σ)
  | New o k => let '(l, σ') := alloc o σ in run callf (k l) σ'
  end.

(** The argument list [before] hands to the original, from what the advice
    returned:
<<
    if (tmp === undefined)         return old.apply(this, arguments);
    else if (tmp instanceof Array) return old.apply(this, tmp);
    else                           return old.apply(this, [tmp]);
>> *)
Definition before_arguments (h : heap) (tmp : value) (arguments : list value)
    : list value :=
  if decide (tmp = VUndefined) then arguments
  else if instanceof_Array h tmp then list_from_array_like h tmp
  else [tmp].

Section Interpreter.

(** The functions written by the user: body [natives id this args]. *)
Variable natives : nat → value → list value → prog.

(** [f.apply(this, args)], with [apply] the built-in of function objects,
    given the way the calls inside the body are resolved.  Applying a
    value that is not a function object is a TypeError.  The wrappers
    that let [arguments] escape ([handle], [around]) allocate the
    arguments object on entry; [this] is the binding of the activation.
<<
  before:  var tmp = fun.apply(this, arguments);
           if (tmp === undefined)         return old.apply(this, arguments);
           else if (tmp instanceof Array) return old.apply(this, tmp);
           else                           return old.apply(this, [tmp]);
  after:   var tmp = old.apply(this, arguments);
           return fun.apply(this, [tmp]);
  handle:  try { old.apply(this, arguments); }
           catch (e) { fun.apply(this, new Array(e, arguments)); }
  around:  return fun.apply(this, Array(old, arguments));
>> *)
Definition apply (callf : caller) (f this : value) (args : list value)
    (σ : state) : outcome :=
  match function_code (heap_of σ) f with
  | None => Some (throw_type_error σ)
  | Some c =>
      let σ0 := log (Called f this args) σ in
      match c with
      | Native id => run callf (natives id this args) σ0
      | BeforeWrapper old fun_ =>
          match callf fun_ this args σ0 with
          | Some (Return tmp, σ1) =>
              callf old this (before_arguments (heap_of σ1) tmp args) σ1
          | r => r
          end
      | AfterWrapper old fun_ =>
          match callf old this args σ0 with
          | Some (Return tmp, σ1) => callf fun_ this [tmp] σ1
          | r => r
          end
      | HandleWrapper old fun_ =>
          let '(arguments, σ1) := alloc (arguments_object args) σ0 in
          match callf old this args σ1 with
          | Some (Return _, σ2) => Some (Return VUndefined, σ2)
          | Some (Throw e, σ2) =>
              match callf fun_ this [e; VRef arguments] σ2 with
              | Some (Return _, σ3) => Some (Return VUndefined, σ3)
              | r => r
              end
          | None => None
          end
      | AroundWrapper old fun_ =>
          let '(arguments, σ1) := alloc (arguments_object args) σ0 in
          callf fun_ this [old; VRef arguments] σ1
      end
  end.

(** Calls nest at most [fuel] deep; [None] when that does not suffice. *)
Fixpoint call (fuel : nat) : caller :=
  match fuel with
  | O => λ _ _ _ _, None
  | S n => apply (call n)
  end.

End Interpreter.

(** ** The library *)

(** Straight-line library code: each statement either completes with a
    value or throws, and passes the state on. *)
Definition js : Type := state → result.

Definition ret (v : value) : js := λ σ, (Return v, σ).
Definition throw (e : value) : js := λ σ, (Throw e, σ).
Definition bind (m : js) (k : value → js) : js :=
  λ σ, match m σ with
       | (Return v, σ') => k v σ'
       | (Throw e, σ') => (Throw e, σ')
       end.

Notation "'var' x ':=' m ; k" := (bind m (λ x, k))
  (at level 10, x name, m at level 100, k at level 200,
   format "'[v' 'var'  x  ':='  m ; '/' k ']'").
Notation "m ;; k" := (bind m (λ _, k))
  (at level 100, k at level 200, right associativity).

(** [obj[method]] *)
Definition get (obj : value) (method : prim) : js :=
  λ σ, match get_member (heap_of σ) obj (to_key method) with
       | Some v => (Return v, σ)
       | None => throw_type_error σ
       end.

(** [obj[method] = w].  Assignment to a member of a primitive is silently
    dropped by the host; the library only assigns to checked targets. *)
Definition set (obj : value) (method : prim) (w : value) : js :=
  λ σ, match obj with
       | VRef l => (Return w, store l (to_key method) w σ)
       | VPrim PUndefined | VPrim PNull => throw_type_error σ
       | VPrim _ => (Return w, σ)
       end.

(** [function () { ... }]: a new function object with the given body. *)
Definition closure (c : code) : js :=
  λ σ, let '(w, σ') := alloc (Object (FunctionC c) ∅ None) σ in
       (Return (VRef w), σ').

(** The four error constants of the namespace object:
<<
    this.InvalidObject  = new Error("unable to add aop function to non-object");
    this.InvalidMethod  = new Error("unknown method");
    this.InvalidAspect  = new Error("can only add functions");
    this.InvalidProceed = new Error("you can not call proceed from here");
>> *)
Record namespace : Type := Namespace {
  InvalidObject : value;
  InvalidMethod : value;
  InvalidAspect : value;
  InvalidProceed : value
}.

Definition error_object (message : string) : object :=
  Object (ErrorC "Error") {[ "message" := VString message ]} None.

(** Loading the library allocates the four error objects. *)
Definition load (σ : state) : namespace * state :=
  let '(e1, σ1) := alloc (error_object "unable to add aop function to non-object") σ in
  let '(e2, σ2) := alloc (error_object "unknown method") σ1 in
  let '(e3, σ3) := alloc (error_object "can only add functions") σ2 in
  let '(e4, σ4) := alloc (error_object "you can not call proceed from here") σ3 in
  (Namespace (VRef e1) (VRef e2) (VRef e3) (VRef e4), σ4).

Section Library.

Variable AOP : namespace.

(**
<<
  function check(obj, method, fun) {
      if (typeof obj !== 'object')              throw AOP.InvalidObject;
      if (typeof fun !== 'function')            throw AOP.InvalidAspect;
      if (!method || obj[method] === undefined) throw AOP.InvalidMethod;
  }
>> *)
Definition check (obj : value) (method : prim) (fun_ : value) : js :=
  λ σ,
  if negb (bool_decide (typeof (heap_of σ) obj = TObject))
  then throw (InvalidObject AOP) σ
  else if negb (bool_decide (typeof (heap_of σ) fun_ = TFunction))
  then throw (InvalidAspect AOP) σ
  else if negb (truthy method)
  then throw (InvalidMethod AOP) σ
  else (var m := get obj method;
        if bool_decide (m = VUndefined)
        then throw (InvalidMethod AOP)
        else ret VUndefined) σ.

(**
<<
  this.before = function (obj, method, fun) {
      check(obj, method, fun);
      var old = obj[method];
      obj[method] = function () { ... };
      return old;
  };
>> *)
Definition before (obj : value) (method : prim) (fun_ : value) : js :=
  check obj method fun_ ;;
  var old := get obj method;
  var w := closure (BeforeWrapper old fun_);
  set obj method w ;;
  ret old.

Definition after (obj : value) (method : prim) (fun_ : value) : js :=
  check obj method fun_ ;;
  var old := get obj method;
  var w := closure (AfterWrapper old fun_);
  set obj method w ;;
  ret old.

Definition handle (obj : value) (method : prim) (fun_ : value) : js :=
  check obj method fun_ ;;
  var old := get obj method;
  var w := closure (HandleWrapper old fun_);
  set obj method w ;;
  ret old.

Definition around (obj : value) (method : prim) (fun_ : value) : js :=
  check obj method fun_ ;;
  var old := get obj method;
  var w := closure (AroundWrapper old fun_);
  set obj method w ;;
  ret old.

End Library.

(** The four operations, for statements about all of them. *)
Inductive operation : Type := Before | After | Handle | Around.

Definition wrap (op : operation) (AOP : namespace)
    : value → prim → value → js :=
  match op with
  | Before => before AOP
  | After => after AOP
  | Handle => handle AOP
  | Around => around AOP
  end.

Definition wrapper_code (op : operation) : value → value → code :=
  match op with
  | Before => BeforeWrapper
  | After => AfterWrapper
  | Handle => HandleWrapper
  | Around => AroundWrapper
  end.

(** The value of the expression [target[method]] in a state. *)
Definition member (σ : state) (target : value) (method : prim) : value :=
  default VUndefined (get_member (heap_of σ) target (to_key method)).

(** ** Relating states *)

(** A later heap: every object is still there, with the class it was
    created with.  In particular the code of a function object, and with it
    the variables a wrapper captured, never changes. *)
Definition extends (h h' : heap) : Prop :=
  ∀ l o, h !! l = Some o → ∃ o', h' !! l = Some o' ∧ cls o' = cls o.

(** [later σ σ']: the heap of [σ'] extends that of [σ] and the trace of
    [σ'] continues that of [σ]. *)
Definition later (σ σ' : state) : Prop :=
  extends (heap_of σ) (heap_of σ') ∧ ∃ evs, trace σ' = trace σ ++ evs.

(** A way of resolving calls that only adds to the state. *)
Definition monotone (callf : caller) : Prop :=
  ∀ f this args σ c σ', callf f this args σ = Some (c, σ') → later σ σ'.

(** The state after a successful wrap of [l[k]]: the closure is the
    newest object and the slot refers to it. *)
Definition installed (c : code) (l : loc) (k : string) (σ : state) : state :=
  store l k (VRef (length (heap_of σ)))
    (alloc (Object (FunctionC c) ∅ None) σ).2.

(** The library has been loaded: the namespace is the one [load] created
    in some earlier state. *)
Definition loaded (AOP : namespace) (σ : state) : Prop :=
  ∃ σ0, AOP = (load σ0).1 ∧ later (load σ0).2 σ.

(** The error taxonomy of the namespace. *)
Definition taxonomy (AOP : namespace) : list value :=
  [InvalidObject AOP; InvalidMethod AOP; InvalidAspect AOP; InvalidProceed AOP].

(** User code that never throws [e] of its own: whatever it finishes with
    after completions other than [Throw e] is not [Throw e].  (It may let
    through what a callee threw.) *)
Fixpoint does_not_throw (e : value) (p : prog) : Prop :=
  match p with
  | Done c => c ≠ Throw e
  | Invoke _ _ _ k => ∀ c, c ≠ Throw e → does_not_throw e (k c)
  | Inspect k => ∀ h, does_not_throw e (k h)
  | Store _ _ _ k => does_not_throw e k
  | New _ k => ∀ l, does_not_throw e (k l)
  end.

(** A way of resolving calls in which [VRef l], an object that exists
    already, is never thrown. *)
Definition never_throws (l : loc) (callf : caller) : Prop :=
  ∀ f this args σ c σ',
    (l < length (heap_of σ))%nat →
    callf f this args σ = Some (c, σ') → c ≠ Throw (VRef l).

(** Reading a trace: which function an entry records, where a function is
    first invoked, and whether [f] is first invoked before [g] is. *)
Definition callee (e : event) : value :=
  match e with Called f _ _ => f end.

Definition first_call (f : value) (tr : list event) : option nat :=
  fst <$> list_find (λ e, callee e = f) tr.

Definition runs_before (f g : value) (tr : list event) : bool :=
  match first_call f tr, first_call g tr with
  | Some i, Some j => bool_decide (i < j)%nat
  | _, _ => false
  end.

(** ** A worked scenario

    The target of the examples has a method [greet], a method [fail] that
    throws its argument, and a data member [count]. *)

Definition upper_char (c : ascii) : ascii :=
  let n := nat_of_ascii c in
  if ((97 <=? n) && (n <=? 122))%nat then ascii_of_nat (n - 32) else c.

Fixpoint toUpperCase (s : string) : string :=
  match s with
  | EmptyString => EmptyString
  | String c s' => String (upper_char c) (toUpperCase s')
  end.

(** The user functions, by index (each for string arguments):
<<
    0: function (name) { return "Hello, " + name; }
    1: function (name) { return name.toUpperCase(); }
    2: function () { }
    3: function (x) { throw x; }
    4: function (a, b) { return [b, a]; }
    5: function (old, args) { return old.apply(this, args); }
>> *)
Definition example_natives (id : nat) (this : value) (args : list value)
    : prog :=
  match id, args with
  | 0%nat, VString name :: _ => Done (Return (VString ("Hello, " +:+ name)))
  | 1%nat, VString name :: _ => Done (Return (VString (toUpperCase name)))
  | 3%nat, x :: _ => Done (Throw x)
  | 4%nat, a :: b :: _ =>
      New (array_object [b; a]) (λ l, Done (Return (VRef l)))
  | 5%nat, old :: args' :: _ =>
      Inspect (λ h, Invoke old this (list_from_array_like h args') Done)
  | _, _ => Done (Return VUndefined)
  end.

Definition example_function (id : nat) : object :=
  Object (FunctionC (Native id)) ∅ None.

Definition greet : value := VRef 0.
Definition upper : value := VRef 1.
Definition silent : value := VRef 2.
Definition fail : value := VRef 3.
Definition swap : value := VRef 4.
Definition proceed : value := VRef 5.
Definition target : value := VRef 6.

Definition example_heap : heap :=
  (example_function <$> seq 0 6) ++
  [Object Ordinary
     {[ "greet" := greet; "fail" := fail; "count" := VNum 5 ]} None].

Definition example_AOP : namespace := (load (State example_heap [])).1.

(** The state once the library is loaded. *)
Definition example_state : state := (load (State example_heap [])).2.

(** The state after [op(target, method, advice)] in the example state. *)
Definition wrapped (op : operation) (method : string) (advice : value)
    : state :=
  (wrap op example_AOP target (PString method) advice example_state).2.

(** Two [before] wraps of [greet] in a row: first with [silent], then with
    [upper]. *)
Definition chained : state :=
  (before example_AOP target (PString "greet") upper
     (wrapped Before "greet" silent)).2.

(** The user functions without the one that throws its argument. *)
Definition quiet_natives (id : nat) (this : value) (args : list value)
    : prog :=
  match id with
  | 3%nat => Done (Return VUndefined)
  | _ => example_natives id this args
  end.

(** ** A second scenario: a method on a shared prototype

    Two objects inherit [greet] from the same prototype object. *)

Definition shared_heap : heap :=
  [example_function 0;
   Object Ordinary {[ "greet" := VRef 0 ]} None;
   Object Ordinary ∅ (Some 1%nat);
   Object Ordinary ∅ (Some 1%nat);
   example_function 1].

Definition shared_AOP : namespace := (load (State shared_heap [])).1.

Definition shared_state : state := (load (State shared_heap [])).2.

(** [before(target, "greet", fail)], then [handle(target, "greet", silent)]:
    the inner advice throws its argument. *)
Definition guarded : state :=
  (handle example_AOP target (PString "greet") silent
     (wrapped Before "greet" fail)).2.

(** [after(target, "greet", upper)], then [after(target, "greet", silent)]. *)
Definition chained_after : state :=
  (after example_AOP target (PString "greet") silent
     (wrapped After "greet" upper)).2.

(** An Array object that holds the values [vs]: its length is that of
    [vs] and its elements, own properties under the decimal indices, are
    those of [vs].  Its other properties and its prototype are free. *)
Definition array_elements (o : object) (vs : list value) : Prop :=
  cls o = ArrayC
  ∧ props o !! "length" = Some (VNum (Z.of_nat (length vs)))
  ∧ ∀ (i : nat) v, vs !! i = Some v → props o !! pretty i = Some v.

(** ** Basic facts about the heap *)

Lemma lookup_chain_own n (h : heap) l o k v :
  h !! l = Some o → props o !! k = Some v → lookup_chain n h l k = v.
Proof. intros Hl Hk. destruct n; simpl; rewrite Hl, Hk; reflexivity. Qed.

Lemma lookup_chain_flat n (h : heap) l o k :
  h !! l = Some o → proto o = None →
  lookup_chain n h l k = default VUndefined (props o !! k).
Proof.
  intros Hl Hp. destruct n; simpl; rewrite Hl, Hp; destruct (props o !! k); reflexivity.
Qed.

Lemma lookup_chain_dangling n (h : heap) l k :
  h !! l = None → lookup_chain n h l k = VUndefined.
Proof. intros Hl. destruct n; simpl; rewrite Hl; reflexivity. Qed.

Lemma alloc_lookup_new (o : object) σ :
  heap_of (alloc o σ).2 !! (alloc o σ).1 = Some o.
Proof.
  unfold alloc; simpl. rewrite lookup_app_r by lia.
  replace (length (heap_of σ) - length (heap_of σ))%nat with 0%nat by lia.
  reflexivity.
Qed.

Lemma alloc_lookup_old (o : object) σ l :
  (l < length (heap_of σ))%nat →
  heap_of (alloc o σ).2 !! l = heap_of σ !! l.
Proof. intros Hl. unfold alloc; simpl. apply lookup_app_l, Hl. Qed.

Lemma extends_refl h : extends h h.
Proof. intros l o Hl. eauto. Qed.

Lemma extends_trans h1 h2 h3 : extends h1 h2 → extends h2 h3 → extends h1 h3.
Proof.
  intros H12 H23 l o Hl.
  destruct (H12 l o Hl) as (o2 & Hl2 & Hc2).
  destruct (H23 l o2 Hl2) as (o3 & Hl3 & Hc3).
  exists o3. split; [assumption | congruence].
Qed.

Lemma extends_alloc o σ : extends (heap_of σ) (heap_of (alloc o σ).2).
Proof.
  intros l o' Hl. exists o'. split; [| reflexivity].
  rewrite alloc_lookup_old; [assumption |].
  eapply lookup_lt_Some, Hl.
Qed.

Lemma extends_store l k v σ : extends (heap_of σ) (heap_of (store l k v σ)).
Proof.
  intros l' o Hl. unfold store; simpl.
  destruct (decide (l = l')) as [-> | Hne].
  - exists (set_prop k v o). rewrite list_lookup_alter_eq, Hl. auto.
  - exists o. rewrite list_lookup_alter_ne by assumption. auto.
Qed.

Lemma extends_log e σ : heap_of (log e σ) = heap_of σ.
Proof. reflexivity. Qed.

Lemma extends_length h h' : extends h h' → (length h ≤ length h')%nat.
Proof.
  intros Hext. destruct (decide (length h = 0%nat)) as [-> | Hne]; [lia |].
  destruct (lookup_lt_is_Some_2 h (length h - 1)) as [o Ho]; [lia |].
  destruct (Hext _ _ Ho) as (o' & Ho' & _).
  apply lookup_lt_Some in Ho'. lia.
Qed.

Lemma function_code_extends h h' f c :
  extends h h' → function_code h f = Some c → function_code h' f = Some c.
Proof.
  intros Hext. destruct f as [p | l]; simpl; [discriminate |].
  destruct (h !! l) as [[[] ps pr] |] eqn:Hl; try discriminate.
  intros [= ->]. destruct (Hext _ _ Hl) as ([c' ps' pr'] & -> & Hc).
  simpl in Hc. subst c'. reflexivity.
Qed.

Lemma typeof_extends h h' v :
  extends h h' → typeof h v = TFunction → typeof h' v = TFunction.
Proof.
  intros Hext. destruct v as [[] | l]; simpl; try discriminate.
  destruct (h !! l) as [[[] ps pr] |] eqn:Hl; try discriminate.
  intros _. destruct (Hext _ _ Hl) as ([c' ps' pr'] & -> & Hc).
  simpl in Hc. subst c'. reflexivity.
Qed.

Lemma typeof_function_code h v :
  typeof h v = TFunction ↔ is_Some (function_code h v).
Proof.
  destruct v as [[] | l]; simpl;
    try (split; [discriminate | intros [? [=]]]).
  destruct (h !! l) as [[[] ps pr] |]; simpl;
    split; try discriminate; try (intros [? [=]]); eauto.
Qed.

(** ** Execution only adds to the state *)

Lemma later_refl σ : later σ σ.
Proof. split; [apply extends_refl | exists []; symmetry; apply app_nil_r]. Qed.

Lemma later_trans σ1 σ2 σ3 : later σ1 σ2 → later σ2 σ3 → later σ1 σ3.
Proof.
  intros [H12 [e12 T12]] [H23 [e23 T23]]. split.
  - eapply extends_trans; eassumption.
  - exists (e12 ++ e23). rewrite T23, T12, app_assoc. reflexivity.
Qed.

Lemma later_alloc o σ : later σ (alloc o σ).2.
Proof. split; [apply extends_alloc | exists []; symmetry; apply app_nil_r]. Qed.

Lemma later_store l k v σ : later σ (store l k v σ).
Proof. split; [apply extends_store | exists []; symmetry; apply app_nil_r]. Qed.

Lemma later_log e σ : later σ (log e σ).
Proof. split; [apply extends_refl | exists [e]; reflexivity]. Qed.

Lemma later_type_error σ : later σ (throw_type_error σ).2.
Proof. apply later_alloc. Qed.

Lemma run_later callf p :
  monotone callf →
  ∀ σ c σ', run callf p σ = Some (c, σ') → later σ σ'.
Proof.
  intros Hcall. induction p as [c0 | f this args k IH | k IH | l key v k IH | o k IH];
    intros σ c σ' Hrun; simpl in Hrun.
  - injection Hrun as <- <-. apply later_refl.
  - destruct (callf f this args σ) as [[c1 σ1] |] eqn:Hc; [| discriminate].
    eapply later_trans; [eapply Hcall, Hc | eapply IH, Hrun].
  - eapply IH, Hrun.
  - eapply later_trans; [apply later_store | eapply IH, Hrun].
  - eapply later_trans; [apply (later_alloc o) | eapply IH, Hrun].
Qed.

Section Invariants.

Variable natives : nat → value → list value → prog.

(** What a function application adds to the state after the entry that
    records it. *)
Lemma apply_body_later callf f this args σ code c σ' :
  monotone callf →
  function_code (heap_of σ) f = Some code →
  apply natives callf f this args σ = Some (c, σ') →
  later (log (Called f this args) σ) σ'.
Proof.
  intros Hcall Hcode Happ. unfold apply in Happ. rewrite Hcode in Happ.
  destruct code as [id | old fun_ | old fun_ | old fun_ | old fun_].
  - eapply run_later; eassumption.
  - destruct (callf fun_ this args _) as [[[tmp | e] σ1] |] eqn:H1;
      try discriminate.
    + eapply later_trans; eapply Hcall; eassumption.
    + injection Happ as <- <-. eapply Hcall; eassumption.
  - destruct (callf old this args _) as [[[tmp | e] σ1] |] eqn:H1;
      try discriminate.
    + eapply later_trans; eapply Hcall; eassumption.
    + injection Happ as <- <-. eapply Hcall; eassumption.
  - pose proof (later_alloc (arguments_object args)
                  (log (Called f this args) σ)) as Hσ1.
    destruct (alloc _ _) as [la σ1]. simpl in Hσ1.
    destruct (callf old this args σ1) as [[[v | e] σ2] |] eqn:H1;
      try discriminate.
    + injection Happ as <- <-.
      eapply later_trans; [exact Hσ1 | eapply Hcall, H1].
    + destruct (callf fun_ this _ σ2) as [[[v | e'] σ3] |] eqn:H2;
        try discriminate; injection Happ as <- <-;
        (eapply later_trans; [exact Hσ1 |]);
        (eapply later_trans; eapply Hcall; eassumption).
  - pose proof (later_alloc (arguments_object args)
                  (log (Called f this args) σ)) as Hσ1.
    destruct (alloc _ _) as [la σ1]. simpl in Hσ1.
    eapply later_trans; [exact Hσ1 | eapply Hcall, Happ].
Qed.

Lemma apply_later callf : monotone callf → monotone (apply natives callf).
Proof.
  intros Hcall f this args σ c σ' Happ.
  destruct (function_code (heap_of σ) f) as [code |] eqn:Hcode.
  - eapply later_trans; [apply later_log |].
    eapply apply_body_later; eassumption.
  - unfold apply in Happ. rewrite Hcode in Happ.
    injection Happ as <- <-. apply later_type_error.
Qed.

Lemma call_later fuel : monotone (call natives fuel).
Proof.
  induction fuel as [| n IH]; simpl.
  - intros f this args σ c σ' [=].
  - apply apply_later, IH.
Qed.

(** An invocation of a function object is recorded first. *)
Lemma call_recorded fuel f this args σ c σ' :
  call natives fuel f this args σ = Some (c, σ') →
  is_Some (function_code (heap_of σ) f) →
  ∃ evs, trace σ' = trace σ ++ Called f this args :: evs.
Proof.
  intros Hcall [code Hcode].
  destruct fuel as [| n]; simpl in Hcall; [discriminate |].
  destruct (apply_body_later _ _ _ _ _ _ _ _ (call_later n) Hcode Hcall)
    as [_ [evs Ht]].
  exists evs. rewrite Ht. unfold log; simpl.
  rewrite <- app_assoc. reflexivity.
Qed.

(** Only a function object returns, and its invocation is the next entry
    of the trace. *)
Lemma call_returns_recorded fuel f this args e σ v σ' :
  call natives fuel f this args (log e σ) = Some (Return v, σ') →
  ∃ evs, trace σ' = trace σ ++ e :: Called f this args :: evs.
Proof.
  intros Hcall.
  assert (is_Some (function_code (heap_of (log e σ)) f)) as Hfun.
  { destruct fuel as [| n]; simpl in Hcall; [discriminate |].
    unfold apply in Hcall.
    destruct (function_code (heap_of (log e σ)) f); [eauto |].
    unfold throw_type_error in Hcall. destruct (alloc _ _).
    discriminate Hcall. }
  destruct (call_recorded _ _ _ _ _ _ _ Hcall Hfun) as [evs Ht].
  exists evs. rewrite Ht. unfold log. simpl.
  rewrite <- app_assoc. reflexivity.
Qed.

End Invariants.

(** ** What a wrap operation does, case by case *)

Section Wrapping.

Variable AOP : namespace.

Lemma wrap_cases op obj method fun_ σ :
  wrap op AOP obj method fun_ σ =
    if negb (bool_decide (typeof (heap_of σ) obj = TObject))
    then (Throw (InvalidObject AOP), σ)
    else if negb (bool_decide (typeof (heap_of σ) fun_ = TFunction))
    then (Throw (InvalidAspect AOP), σ)
    else if negb (truthy method)
    then (Throw (InvalidMethod AOP), σ)
    else match obj with
         | VRef l =>
             let old := lookup_chain (length (heap_of σ)) (heap_of σ) l
                          (to_key method) in
             if bool_decide (old = VUndefined)
             then (Throw (InvalidMethod AOP), σ)
             else (Return old,
                   installed (wrapper_code op old fun_) l (to_key method) σ)
         | VPrim _ => throw_type_error σ
         end.
Proof.
  destruct op;
    cbv [wrap before after handle around bind check throw ret get set
         closure installed wrapper_code];
    (destruct (bool_decide (typeof (heap_of σ) obj = TObject)) eqn:Hobj;
       cbn [negb]; [| reflexivity]);
    (destruct (bool_decide (typeof (heap_of σ) fun_ = TFunction));
       cbn [negb]; [| reflexivity]);
    (destruct (truthy method); cbn [negb]; [| reflexivity]);
    (destruct obj as [[] | l]; try discriminate Hobj; cbn [get_member]);
    cbv [throw_type_error alloc];
    try reflexivity;
    (destruct (bool_decide (_ = VUndefined)); reflexivity).
Qed.

(** A wrap that completes normally: what was checked, what is returned
    and the state it leaves. *)
Lemma wrap_success op obj method fun_ σ old σ' :
  wrap op AOP obj method fun_ σ = (Return old, σ') →
  ∃ l o,
    obj = VRef l ∧ heap_of σ !! l = Some o ∧
    typeof (heap_of σ) obj = TObject ∧
    typeof (heap_of σ) fun_ = TFunction ∧
    truthy method = true ∧
    old = member σ obj method ∧ old ≠ VUndefined ∧
    σ' = installed (wrapper_code op old fun_) l (to_key method) σ.
Proof.
  rewrite wrap_cases.
  destruct (bool_decide (typeof (heap_of σ) obj = TObject)) eqn:Hobj;
    simpl; [| discriminate].
  destruct (bool_decide (typeof (heap_of σ) fun_ = TFunction)) eqn:Hfun;
    simpl; [| discriminate].
  destruct (truthy method); simpl; [| discriminate].
  apply bool_decide_eq_true in Hobj, Hfun.
  destruct obj as [p | l].
  { unfold throw_type_error. destruct (alloc _ _). discriminate. }
  simpl. destruct (bool_decide _) eqn:Hold; [discriminate |].
  apply bool_decide_eq_false in Hold.
  intros [= <- <-].
  destruct (heap_of σ !! l) as [o |] eqn:Hl.
  - simpl in Hobj. rewrite Hl in Hobj. exists l, o. repeat split; auto.
  - exfalso. apply Hold. apply lookup_chain_dangling, Hl.
Qed.

(** A wrap that throws: either one of three errors of the namespace, in
    the state as it was, or the TypeError of a [null] target. *)
Lemma wrap_throw op obj method fun_ σ e σ' :
  wrap op AOP obj method fun_ σ = (Throw e, σ') →
  (σ' = σ ∧ (e = InvalidObject AOP ∨ e = InvalidAspect AOP
             ∨ e = InvalidMethod AOP))
  ∨ (obj = VNull ∧ (Throw e, σ') = throw_type_error σ).
Proof.
  rewrite wrap_cases.
  destruct (bool_decide (typeof (heap_of σ) obj = TObject)) eqn:Hobj;
    simpl negb; cbv iota; [| intros [= <- <-]; auto].
  destruct (bool_decide (typeof (heap_of σ) fun_ = TFunction));
    simpl negb; cbv iota; [| intros [= <- <-]; auto].
  destruct (truthy method); simpl negb; cbv iota; [| intros [= <- <-]; auto].
  apply bool_decide_eq_true in Hobj.
  destruct obj as [[] | l]; try discriminate Hobj.
  - intros <-. right. auto.
  - cbv zeta. destruct (bool_decide _); [| discriminate].
    intros [= <- <-]. auto.
Qed.

Lemma installed_heap c l k σ o :
  heap_of σ !! l = Some o →
  heap_of (installed c l k σ) =
    <[l := set_prop k (VRef (length (heap_of σ))) o]> (heap_of σ)
      ++ [Object (FunctionC c) ∅ None].
Proof.
  intros Hl. unfold installed, store, alloc; simpl.
  pose proof (lookup_lt_Some _ _ _ Hl) as Hlt.
  apply list_eq. intros i.
  destruct (decide (i = l)) as [-> | Hne].
  - rewrite list_lookup_alter_eq, lookup_app_l by assumption.
    rewrite lookup_app_l by (rewrite length_insert; assumption).
    rewrite Hl, list_lookup_insert_eq by assumption. reflexivity.
  - rewrite list_lookup_alter_ne by congruence.
    destruct (decide (i < length (heap_of σ))%nat).
    + rewrite !lookup_app_l by (rewrite ?length_insert; assumption).
      rewrite list_lookup_insert_ne by congruence. reflexivity.
    + rewrite !lookup_app_r by (rewrite ?length_insert; lia).
      rewrite length_insert. reflexivity.
Qed.

(** After a successful wrap the slot holds the new closure, whose
    captured variables are the old member and the advice; every other
    object is as before. *)
Lemma installed_member c l k σ o :
  heap_of σ !! l = Some o →
  lookup_chain (length (heap_of (installed c l k σ)))
    (heap_of (installed c l k σ)) l k = VRef (length (heap_of σ)).
Proof.
  intros Hl. pose proof (lookup_lt_Some _ _ _ Hl) as Hlt.
  apply lookup_chain_own with (o := set_prop k (VRef (length (heap_of σ))) o).
  - rewrite (installed_heap _ _ _ _ _ Hl).
    rewrite lookup_app_l by (rewrite length_insert; assumption).
    apply list_lookup_insert_eq; assumption.
  - simpl. apply lookup_insert_eq.
Qed.

Lemma installed_code c l k σ o :
  heap_of σ !! l = Some o →
  function_code (heap_of (installed c l k σ)) (VRef (length (heap_of σ)))
    = Some c.
Proof.
  intros Hl. unfold function_code. rewrite (installed_heap _ _ _ _ _ Hl).
  rewrite lookup_app_r by (rewrite length_insert; lia).
  rewrite length_insert.
  replace (length (heap_of σ) - length (heap_of σ))%nat with 0%nat by lia.
  reflexivity.
Qed.


Lemma installed_trace c l k σ : trace (installed c l k σ) = trace σ.
Proof. reflexivity. Qed.

(** The wrapper a successful wrap installs, as the caller finds it. *)
Lemma wrap_installs op obj method fun_ σ old σ' :
  wrap op AOP obj method fun_ σ = (Return old, σ') →
  function_code (heap_of σ') (member σ' obj method)
    = Some (wrapper_code op old fun_).
Proof.
  intros Hwrap.
  destruct (wrap_success _ _ _ _ _ _ _ Hwrap)
    as (l & o & -> & Hl & _ & _ & _ & _ & _ & ->).
  unfold member, get_member.
  rewrite (installed_member _ _ _ _ _ Hl). simpl default.
  apply (installed_code _ _ _ _ _ Hl).
Qed.

End Wrapping.

(** ** Array-likes hold their elements *)

Lemma pretty_N_go_not_l x s s' :
  s ≠ String "l"%char s' → pretty_N_go x s ≠ String "l"%char s'.
Proof.
  revert s. induction (N.lt_wf_0 x) as [x _ IH]; intros s Hs.
  assert (x = 0 ∨ 0 < x)%N as [-> | Hpos] by lia.
  - rewrite pretty_N_go_0. exact Hs.
  - rewrite pretty_N_go_step by assumption. apply IH.
    + apply N.div_lt; [assumption | reflexivity].
    + unfold pretty_N_char. repeat case_match; discriminate.
Qed.

Lemma pretty_nat_not_length (i : nat) : pretty i ≠ "length".
Proof.
  unfold pretty, pretty_nat, pretty, pretty_N.
  case_decide; [discriminate |].
  apply pretty_N_go_not_l. discriminate.
Qed.

Lemma index_props_length j vs : index_props j vs !! "length" = None.
Proof.
  revert j. induction vs as [| v vs IH]; intros j; simpl.
  - apply lookup_empty.
  - rewrite lookup_insert_ne by apply pretty_nat_not_length. apply IH.
Qed.

Lemma index_props_lookup vs : ∀ j i : nat,
  index_props j vs !! pretty i =
    if decide (j ≤ i)%nat then vs !! (i - j)%nat else None.
Proof.
  induction vs as [| v vs IH]; intros j i; simpl.
  - rewrite lookup_empty. case_decide; reflexivity.
  - destruct (decide (j = i)) as [-> | Hne].
    + rewrite lookup_insert_eq. rewrite decide_True by lia.
      replace (i - i)%nat with 0%nat by lia. reflexivity.
    + rewrite lookup_insert_ne by (intros Heq; apply Hne; exact (inj pretty _ _ Heq)).
      rewrite IH. repeat case_decide; try lia; try reflexivity.
      replace (i - j)%nat with (S (i - S j)) by lia. reflexivity.
Qed.

Lemma array_like_props_length vs :
  array_like_props vs !! "length" = Some (VNum (Z.of_nat (length vs))).
Proof. apply lookup_insert_eq. Qed.

Lemma array_like_props_index vs (i : nat) :
  array_like_props vs !! pretty i = vs !! i.
Proof.
  unfold array_like_props.
  rewrite lookup_insert_ne by (intros Heq; symmetry in Heq;
                                 exact (pretty_nat_not_length _ Heq)).
  rewrite index_props_lookup, decide_True by lia.
  replace (i - 0)%nat with i by lia. reflexivity.
Qed.

(** [apply] reads back exactly [vs] from an object without prototype whose
    properties are those of the array-like of [vs]. *)
Lemma list_from_array_like_elements (h : heap) l c vs :
  h !! l = Some (Object c (array_like_props vs) None) →
  list_from_array_like h (VRef l) = vs.
Proof.
  intros Hl. unfold list_from_array_like, array_like_length.
  rewrite (lookup_chain_flat _ _ _ _ _ Hl eq_refl). simpl props.
  rewrite array_like_props_length. simpl default. cbv beta iota.
  rewrite Nat2Z.id.
  apply list_eq. intros i. rewrite list_lookup_fmap.
  destruct (decide (i < length vs)%nat) as [Hlt | Hge].
  - rewrite lookup_seq_lt by assumption. simpl.
    rewrite (lookup_chain_flat _ _ _ _ _ Hl eq_refl). simpl props.
    rewrite array_like_props_index.
    destruct (lookup_lt_is_Some_2 vs i Hlt) as [v ->]. reflexivity.
  - rewrite lookup_seq_ge by lia. simpl.
    symmetry. apply lookup_ge_None. lia.
Qed.

(** The [arguments] object an activation allocates holds the argument
    list, and is not an Array. *)
Lemma arguments_allocated args σ :
  list_from_array_like (heap_of (alloc (arguments_object args) σ).2)
    (VRef (alloc (arguments_object args) σ).1) = args
  ∧ instanceof_Array (heap_of (alloc (arguments_object args) σ).2)
      (VRef (alloc (arguments_object args) σ).1) = false
  ∧ typeof (heap_of (alloc (arguments_object args) σ).2)
      (VRef (alloc (arguments_object args) σ).1) = TObject.
Proof.
  pose proof (alloc_lookup_new (arguments_object args) σ) as Hnew.
  split; [| split].
  - eapply list_from_array_like_elements. exact Hnew.
  - unfold instanceof_Array. rewrite Hnew. reflexivity.
  - unfold typeof. rewrite Hnew. reflexivity.
Qed.

Lemma wrap_later op AOP obj method fun_ σ old σ' :
  wrap op AOP obj method fun_ σ = (Return old, σ') → later σ σ'.
Proof.
  intros Hwrap.
  destruct (wrap_success _ _ _ _ _ _ _ _ Hwrap)
    as (l & o & _ & _ & _ & _ & _ & _ & _ & ->).
  unfold installed.
  eapply later_trans; [apply later_alloc | apply later_store].
Qed.

(** What [instanceof] and [apply] make of an Array that holds [vs]. *)
Lemma array_elements_read (h : heap) l o vs :
  h !! l = Some o → array_elements o vs →
  instanceof_Array h (VRef l) = true
  ∧ list_from_array_like h (VRef l) = vs.
Proof.
  intros Hl (Hcls & Hlen & Helems). split.
  - unfold instanceof_Array. rewrite Hl. destruct o as [c ps pr].
    simpl in Hcls. subst c. reflexivity.
  - unfold list_from_array_like, array_like_length.
    rewrite (lookup_chain_own _ _ _ o "length" _ Hl Hlen).
    cbv beta iota. rewrite Nat2Z.id.
    apply list_eq. intros i. rewrite list_lookup_fmap.
    destruct (decide (i < length vs)%nat) as [Hlt | Hge].
    + rewrite lookup_seq_lt by assumption. simpl.
      destruct (lookup_lt_is_Some_2 vs i Hlt) as [v Hv].
      rewrite (lookup_chain_own _ _ _ o (pretty i) v Hl (Helems i v Hv)).
      symmetry. exact Hv.
    + rewrite lookup_seq_ge by lia. simpl.
      symmetry. apply lookup_ge_None. lia.
Qed.

Lemma array_object_elements vs : array_elements (array_object vs) vs.
Proof.
  split; [reflexivity |]. split.
  - apply array_like_props_length.
  - intros i v Hv. simpl. rewrite array_like_props_index. exact Hv.
Qed.

(** A call that throws an object which existed before was the call of a
    function object: the TypeError of applying anything else is new. *)
Lemma thrown_by_function natives fuel f this args σ x σ' :
  call natives fuel f this args σ = Some (Throw (VRef x), σ') →
  (x < length (heap_of σ))%nat →
  is_Some (function_code (heap_of σ) f).
Proof.
  intros Hcall Hx. destruct fuel as [| n]; simpl in Hcall; [discriminate |].
  unfold apply in Hcall.
  destruct (function_code (heap_of σ) f) as [c |]; [eauto |].
  unfold throw_type_error, alloc in Hcall.
  injection Hcall as Hfresh _. lia.
Qed.

(** ** Invoking an installed wrapper *)

Section Invocation.

Variable natives : nat → value → list value → prog.
Variable AOP : namespace.

(** The wrapper keeps its code in every later state. *)
Lemma wrapper_persists op obj method fun_ σ old σ' σi :
  wrap op AOP obj method fun_ σ = (Return old, σ') →
  later σ' σi →
  function_code (heap_of σi) (member σ' obj method)
    = Some (wrapper_code op old fun_).
Proof.
  intros Hwrap [Hext _].
  eapply function_code_extends; [exact Hext |].
  eapply wrap_installs, Hwrap.
Qed.

Lemma call_S n : call natives (S n) = apply natives (call natives n).
Proof. reflexivity. Qed.

(** C1. After a successful [before(target, methodName, advice)], invoking
    the wrapped method with arguments [A] and receiver [r] calls the advice
    first, with [A] and [r].  When the advice returns [tmp], the original
    is applied to [A] if [tmp] is [undefined], to the values [vs] if [tmp]
    is an Array that holds [vs], and to the single argument [tmp] if it is
    any other value; the result of the wrapper is the result of that
    application. *)
Theorem before_advice_governs_arguments target method advice σ old σ' :
  before AOP target method advice σ = (Return old, σ') →
  ∀ σi, later σ' σi →
  ∀ n r A tmp σ1,
    let w := member σ' target method in
    call natives n advice r A (log (Called w r A) σi)
      = Some (Return tmp, σ1) →
    (∃ evs, trace σ1 = trace σi ++ Called w r A :: Called advice r A :: evs)
    ∧ (tmp = VUndefined →
       call natives (S n) w r A σi = call natives n old r A σ1)
    ∧ (∀ a o vs,
         tmp = VRef a → heap_of σ1 !! a = Some o → array_elements o vs →
         call natives (S n) w r A σi = call natives n old r vs σ1)
    ∧ (tmp ≠ VUndefined →
       (∀ a o, tmp = VRef a → heap_of σ1 !! a = Some o → cls o ≠ ArrayC) →
       call natives (S n) w r A σi = call natives n old r [tmp] σ1).
Proof.
  intros Hwrap σi Hlater n r A tmp σ1 w Hadvice.
  pose proof (wrapper_persists Before _ _ _ _ _ _ _ Hwrap Hlater) as Hcode.
  fold w in Hcode. simpl wrapper_code in Hcode.
  assert (call natives (S n) w r A σi =
          call natives n old r (before_arguments (heap_of σ1) tmp A) σ1)
    as Hcall.
  { rewrite call_S. unfold apply. rewrite Hcode, Hadvice. reflexivity. }
  split.
  { eapply call_returns_recorded, Hadvice. }
  rewrite Hcall. unfold before_arguments. repeat split.
  - intros ->. reflexivity.
  - intros a o vs -> Ha Harr.
    destruct (array_elements_read _ _ _ _ Ha Harr) as [Hinst Hlist].
    rewrite decide_False by discriminate.
    rewrite Hinst, Hlist. reflexivity.
  - intros Hdef Hnot. rewrite decide_False by assumption.
    assert (instanceof_Array (heap_of σ1) tmp = false) as ->; [| reflexivity].
    destruct tmp as [q | a]; [reflexivity |]. simpl.
    destruct (heap_of σ1 !! a) as [[c ps pr] |] eqn:Ha; [| reflexivity].
    specialize (Hnot a _ eq_refl Ha). simpl in Hnot.
    destruct c; try reflexivity. congruence.
Qed.

(** X7.  When the advice of a [before] wrapper throws, the wrapper throws
    the same value in the state the advice left: the original is not
    applied. *)
Lemma before_advice_throws target method advice σ old σ' σi n r A e σ1 :
  before AOP target method advice σ = (Return old, σ') →
  later σ' σi →
  call natives n advice r A (log (Called (member σ' target method) r A) σi)
    = Some (Throw e, σ1) →
  call natives (S n) (member σ' target method) r A σi = Some (Throw e, σ1).
Proof.
  intros Hwrap Hlater Hadvice.
  pose proof (wrapper_persists Before _ _ _ _ _ _ _ Hwrap Hlater) as Hcode.
  simpl wrapper_code in Hcode.
  rewrite call_S. unfold apply. rewrite Hcode. cbv beta iota zeta.
  rewrite Hadvice. reflexivity.
Qed.

(** C5. After a successful [after(target, methodName, advice)], invoking
    the wrapped method with arguments [A] and receiver [r] applies the
    original first, to [A] and [r]; when it returns [v], the advice is
    applied to the single argument [v], and the result of the wrapper is
    the result of the advice. *)
Theorem after_advice_receives_result target method advice σ old σ' :
  after AOP target method advice σ = (Return old, σ') →
  ∀ σi, later σ' σi →
  ∀ n r A v σ1,
    let w := member σ' target method in
    call natives n old r A (log (Called w r A) σi) = Some (Return v, σ1) →
    (∃ evs, trace σ1 = trace σi ++ Called w r A :: Called old r A :: evs)
    ∧ call natives (S n) w r A σi = call natives n advice r [v] σ1.
Proof.
  intros Hwrap σi Hlater n r A v σ1 w Hold.
  pose proof (wrapper_persists After _ _ _ _ _ _ _ Hwrap Hlater) as Hcode.
  fold w in Hcode. simpl wrapper_code in Hcode.
  split.
  { eapply call_returns_recorded, Hold. }
  rewrite call_S. unfold apply. rewrite Hcode, Hold. reflexivity.
Qed.

(** C3. After a successful [around(target, methodName, advice)], an
    invocation with arguments [A] applies the advice to exactly two
    arguments, the captured original and the arguments object of the
    invocation (which holds [A]).  Whatever that application completes
    with, a value or a throw, the wrapper completes with the same in the
    same state, and the trace shows the advice invoked right after the
    wrapper; when the advice is a function of the user, the outcome of the
    wrapper is the outcome of running its body.  This holds for every
    advice, whether or not it invokes the original. *)
Theorem around_result_is_advice_result target method advice σ old σ' :
  around AOP target method advice σ = (Return old, σ') →
  ∀ σi, later σ' σi →
  ∀ n r A,
    let w := member σ' target method in
    let entry := alloc (arguments_object A) (log (Called w r A) σi) in
    let args := [old; VRef entry.1] in
    list_from_array_like (heap_of entry.2) (VRef entry.1) = A
    ∧ call natives (S n) w r A σi = call natives n advice r args entry.2
    ∧ (∀ c σ2,
         call natives n advice r args entry.2 = Some (c, σ2) →
         call natives (S n) w r A σi = Some (c, σ2)
         ∧ ∃ evs, trace σ2 =
                    trace σi ++ Called w r A :: Called advice r args :: evs)
    ∧ (∀ id,
         function_code (heap_of σi) advice = Some (Native id) →
         call natives (S (S n)) w r A σi =
           run (call natives n) (natives id r args)
             (log (Called advice r args) entry.2)).
Proof.
  intros Hwrap σi Hlater n r A w entry args.
  pose proof (wrapper_persists Around _ _ _ _ _ _ _ Hwrap Hlater) as Hcode.
  fold w in Hcode. simpl wrapper_code in Hcode.
  assert (∀ m, call natives (S m) w r A σi
               = call natives m advice r args entry.2) as Hcall.
  { intros m. rewrite call_S. unfold apply. rewrite Hcode. cbv zeta.
    subst args. fold entry. destruct entry as [la σ1]. reflexivity. }
  assert (later σi entry.2) as Hentry.
  { eapply later_trans; [apply later_log | apply later_alloc]. }
  split; [apply arguments_allocated |].
  split; [apply Hcall |].
  split.
  - intros c σ2 Hadvice. split; [rewrite Hcall; exact Hadvice |].
    destruct (wrap_success _ Around _ _ _ _ _ _ Hwrap)
      as (l & o & _ & _ & _ & Hfun & _ & _ & _ & _).
    destruct (call_recorded _ _ _ _ _ _ _ _ Hadvice) as [evs Ht].
    { apply typeof_function_code.
      eapply typeof_extends; [| exact Hfun].
      destruct (wrap_later Around _ _ _ _ _ _ _ Hwrap) as [H0 _].
      destruct Hlater as [H1 _]. destruct Hentry as [H2 _].
      eapply extends_trans; [exact H0 |].
      eapply extends_trans; [exact H1 | exact H2]. }
    exists evs. rewrite Ht. unfold entry, alloc, log. simpl.
    rewrite <- app_assoc. reflexivity.
  - intros id Hid. rewrite Hcall, call_S. unfold apply.
    destruct Hentry as [Hext _].
    rewrite (function_code_extends _ _ _ _ Hext Hid). reflexivity.
Qed.

(** C2. After a successful [handle(target, methodName, advice)], an
    invocation with arguments [A] applies the original to [A].  If that
    throws [E], the advice is applied to the two arguments [E] and the
    arguments object (which holds [A]); the wrapper then returns
    [undefined] when the advice returns, so [E] goes no further.  If the
    original returns, the wrapper returns [undefined] in the very state the
    original left: nothing is invoked after it, and its value is dropped. *)
Theorem handle_intercepts_throw target method advice σ old σ' :
  handle AOP target method advice σ = (Return old, σ') →
  ∀ σi, later σ' σi →
  ∀ n r A,
    let w := member σ' target method in
    let entry := alloc (arguments_object A) (log (Called w r A) σi) in
    list_from_array_like (heap_of entry.2) (VRef entry.1) = A
    ∧ (∀ E σ2,
         call natives n old r A entry.2 = Some (Throw E, σ2) →
         call natives (S n) w r A σi =
           match call natives n advice r [E; VRef entry.1] σ2 with
           | Some (Return _, σ3) => Some (Return VUndefined, σ3)
           | other => other
           end)
    ∧ (∀ v σ2,
         call natives n old r A entry.2 = Some (Return v, σ2) →
         call natives (S n) w r A σi = Some (Return VUndefined, σ2)).
Proof.
  intros Hwrap σi Hlater n r A w entry.
  pose proof (wrapper_persists Handle _ _ _ _ _ _ _ Hwrap Hlater) as Hcode.
  fold w in Hcode. simpl wrapper_code in Hcode.
  split; [apply arguments_allocated |].
  split; intros x σ2 Hold; rewrite call_S; unfold apply; rewrite Hcode; cbv zeta;
    fold entry; destruct entry as [la σ1]; simpl in Hold |- *;
    rewrite Hold; reflexivity.
Qed.

End Invocation.

(** ** Validation *)

Lemma loaded_taxonomy AOP σ :
  loaded AOP σ →
  ∃ l, InvalidObject AOP = VRef l ∧ InvalidMethod AOP = VRef (l + 1)
       ∧ InvalidAspect AOP = VRef (l + 2) ∧ InvalidProceed AOP = VRef (l + 3)
       ∧ (l + 4 ≤ length (heap_of σ))%nat.
Proof.
  intros (σ0 & -> & [Hext _]). exists (length (heap_of σ0)).
  apply extends_length in Hext. destruct σ0 as [h0 t0].
  unfold load, alloc in *. simpl in *. rewrite !length_app in *. simpl in *.
  repeat split; try (f_equal; lia); lia.
Qed.

Lemma type_error_fresh σ :
  ∃ σ', throw_type_error σ = (Throw (VRef (length (heap_of σ))), σ')
        ∧ heap_of σ' !! length (heap_of σ)
            = Some (Object (ErrorC "TypeError") ∅ None).
Proof.
  eexists. split; [reflexivity |].
  apply (alloc_lookup_new (Object (ErrorC "TypeError") ∅ None) σ).
Qed.

(** X1.  The order of the checks, for a target that is not [null]: the
    first check that fails decides the error (object, then advice, then
    method name and member), and the state is left as it is. *)
Lemma validation_order op AOP obj method fun_ σ :
  obj ≠ VNull →
  (typeof (heap_of σ) obj ≠ TObject →
     wrap op AOP obj method fun_ σ = (Throw (InvalidObject AOP), σ))
  ∧ (typeof (heap_of σ) obj = TObject →
     typeof (heap_of σ) fun_ ≠ TFunction →
     wrap op AOP obj method fun_ σ = (Throw (InvalidAspect AOP), σ))
  ∧ (typeof (heap_of σ) obj = TObject →
     typeof (heap_of σ) fun_ = TFunction →
     truthy method = false ∨ member σ obj method = VUndefined →
     wrap op AOP obj method fun_ σ = (Throw (InvalidMethod AOP), σ)).
Proof.
  intros Hnull. rewrite wrap_cases. repeat split.
  - intros Hobj. rewrite bool_decide_eq_false_2 by assumption. reflexivity.
  - intros Hobj Hfun. rewrite bool_decide_eq_true_2 by assumption.
    rewrite bool_decide_eq_false_2 by assumption. reflexivity.
  - intros Hobj Hfun Hmethod. rewrite !bool_decide_eq_true_2 by assumption.
    simpl negb. cbv iota.
    destruct (truthy method); simpl negb; cbv iota; [| reflexivity].
    destruct Hmethod as [[=] | Hundef].
    destruct obj as [[] | l]; try discriminate Hobj; [congruence |].
    unfold member in Hundef. simpl in Hundef. cbv zeta.
    rewrite bool_decide_eq_true_2 by assumption. reflexivity.
Qed.


(** C8, as the code has it.  A successful wrap means the member was
    defined at wrap time (and the three checks passed); it need not be
    callable. *)
Theorem wrap_requires_defined_member op AOP obj method advice σ old σ' :
  wrap op AOP obj method advice σ = (Return old, σ') →
  member σ obj method ≠ VUndefined
  ∧ truthy method = true
  ∧ typeof (heap_of σ) obj = TObject
  ∧ typeof (heap_of σ) advice = TFunction.
Proof.
  intros Hwrap.
  destruct (wrap_success _ _ _ _ _ _ _ _ Hwrap)
    as (l & o & _ & _ & Hobj & Hfun & Hm & <- & Hdef & _).
  auto.
Qed.

(** C10, as the code has it.  With target [null] and a callable advice, a
    truthy method name makes the wrap raise a host TypeError, which is none
    of the four errors of the namespace; a falsy method name makes it raise
    [InvalidMethod], as the name is tested before [null] is dereferenced. *)
Theorem null_target_escapes_validation op AOP method advice σ :
  loaded AOP σ →
  typeof (heap_of σ) advice = TFunction →
  (truthy method = true →
     ∃ e σ', wrap op AOP VNull method advice σ = (Throw (VRef e), σ')
             ∧ heap_of σ' !! e = Some (Object (ErrorC "TypeError") ∅ None)
             ∧ VRef e ∉ taxonomy AOP)
  ∧ (truthy method = false →
     wrap op AOP VNull method advice σ = (Throw (InvalidMethod AOP), σ)).
Proof.
  intros Hloaded Hfun. rewrite wrap_cases. simpl typeof.
  rewrite (bool_decide_eq_true_2 (TObject = TObject)) by reflexivity.
  rewrite bool_decide_eq_true_2 by assumption. simpl negb. cbv iota.
  split; intros ->; simpl negb; cbv iota; [| reflexivity].
  destruct (type_error_fresh σ) as (σ' & -> & Hnew).
  exists (length (heap_of σ)), σ'. repeat split; [exact Hnew |].
  destruct (loaded_taxonomy _ _ Hloaded) as (l & H1 & H2 & H3 & H4 & Hlen).
  unfold taxonomy. rewrite H1, H2, H3, H4.
  rewrite !elem_of_cons, elem_of_nil.
  intros [[=] | [[=] | [[=] | [[=] | []]]]]; lia.
Qed.

(** ** No operation throws [InvalidProceed] *)

Lemma run_never_throws l callf p :
  monotone callf → never_throws l callf →
  does_not_throw (VRef l) p →
  ∀ σ c σ', (l < length (heap_of σ))%nat →
    run callf p σ = Some (c, σ') → c ≠ Throw (VRef l).
Proof.
  intros Hmono Hcallf.
  induction p as [c0 | f this args k IH | k IH | l0 key v k IH | o k IH];
    simpl; intros Hp σ c σ' Hlen Hrun.
  - injection Hrun as <- <-. exact Hp.
  - destruct (callf f this args σ) as [[c1 σ1] |] eqn:Hc; [| discriminate].
    eapply (IH c1); [| | exact Hrun].
    + apply Hp. eapply Hcallf; eassumption.
    + apply Hmono in Hc. destruct Hc as [Hext _].
      apply extends_length in Hext. lia.
  - eapply IH; [apply Hp | | exact Hrun]. exact Hlen.
  - eapply IH; [exact Hp | | exact Hrun].
    pose proof (extends_length _ _ (extends_store l0 key v σ)). lia.
  - eapply IH; [apply Hp | | exact Hrun].
    simpl. rewrite length_app. lia.
Qed.

Section NeverThrown.

Variable natives : nat → value → list value → prog.
Variable l : loc.
Hypothesis natives_clean :
  ∀ id this args, does_not_throw (VRef l) (natives id this args).

Lemma apply_never_throws callf :
  monotone callf → never_throws l callf →
  never_throws l (apply natives callf).
Proof.
  intros Hmono Hcallf f this args σ c σ' Hlen Happ.
  assert (∀ σ1 : state, later σ σ1 → (l < length (heap_of σ1))%nat) as Hgrow.
  { intros σ1 [Hext _]. apply extends_length in Hext. lia. }
  unfold apply in Happ.
  destruct (function_code (heap_of σ) f)
    as [[id | old fun_ | old fun_ | old fun_ | old fun_] |].
  - eapply run_never_throws; [exact Hmono | exact Hcallf | apply natives_clean
                              | | exact Happ].
    exact Hlen.
  - destruct (callf fun_ this args _) as [[[tmp | e] σ1] |] eqn:H1;
      try discriminate.
    + eapply Hcallf; [| exact Happ].
      apply Hgrow. eapply later_trans; [apply later_log | eapply Hmono, H1].
    + injection Happ as <- <-. eapply Hcallf; [| exact H1]. exact Hlen.
  - destruct (callf old this args _) as [[[tmp | e] σ1] |] eqn:H1;
      try discriminate.
    + eapply Hcallf; [| exact Happ].
      apply Hgrow. eapply later_trans; [apply later_log | eapply Hmono, H1].
    + injection Happ as <- <-. eapply Hcallf; [| exact H1]. exact Hlen.
  - pose proof (later_alloc (arguments_object args)
                  (log (Called f this args) σ)) as Hσ1.
    destruct (alloc _ _) as [la σ1]. simpl in Hσ1.
    assert (later σ σ1) as Hσ by (eapply later_trans; [apply later_log | exact Hσ1]).
    destruct (callf old this args σ1) as [[[v | e] σ2] |] eqn:H1;
      try discriminate.
    + injection Happ as <- <-. discriminate.
    + destruct (callf fun_ this _ σ2) as [[[v | e'] σ3] |] eqn:H2;
        try discriminate; injection Happ as <- <-; [discriminate |].
      eapply Hcallf; [| exact H2].
      apply Hgrow. eapply later_trans; [exact Hσ | eapply Hmono, H1].
  - pose proof (later_alloc (arguments_object args)
                  (log (Called f this args) σ)) as Hσ1.
    destruct (alloc _ _) as [la σ1]. simpl in Hσ1.
    eapply Hcallf; [| exact Happ].
    apply Hgrow. eapply later_trans; [apply later_log | exact Hσ1].
  - injection Happ as <- <-. intros [= Heq]. lia.
Qed.

Lemma call_never_throws fuel : never_throws l (call natives fuel).
Proof.
  induction fuel as [| n IH]; simpl.
  - intros f this args σ c σ' _ [=].
  - apply apply_never_throws; [apply call_later | exact IH].
Qed.

End NeverThrown.

(** For code of the user that never throws [InvalidProceed] of its own:
    once the library is loaded, no wrap operation and no invocation of any
    function, the installed wrappers among them, completes by throwing
    it. *)
Theorem InvalidProceed_never_raised natives AOP σ :
  loaded AOP σ →
  (∀ id this args,
     does_not_throw (InvalidProceed AOP) (natives id this args)) →
  (∀ op obj method advice,
     (wrap op AOP obj method advice σ).1 ≠ Throw (InvalidProceed AOP))
  ∧ (∀ fuel f this args c σ',
       call natives fuel f this args σ = Some (c, σ') →
       c ≠ Throw (InvalidProceed AOP)).
Proof.
  intros Hloaded Hclean.
  destruct (loaded_taxonomy _ _ Hloaded) as (l & H1 & H2 & H3 & H4 & Hlen).
  split.
  - intros op obj method advice.
    destruct (wrap op AOP obj method advice σ) as [[v | e] σ'] eqn:Hwrap;
      simpl; [discriminate |].
    apply wrap_throw in Hwrap. rewrite H1, H2, H3, H4 in *.
    destruct Hwrap as [[_ [-> | [-> | ->]]] | [_ Herr]];
      try (intros [=]; lia).
    destruct (type_error_fresh σ) as (σ'' & Hfresh & _).
    rewrite Hfresh in Herr. injection Herr as -> _. intros [=]; lia.
  - intros fuel f this args c σ' Hcall. rewrite H4 in *.
    eapply call_never_throws; [exact Hclean | | exact Hcall]. lia.
Qed.

(** C9, as the code has it.  Once the library is loaded, no wrap
    operation completes by throwing [InvalidProceed], and the wrappers
    have no throw of their own: an invocation of an installed method
    completes by throwing [InvalidProceed] only when the application of
    the original or of the advice inside it, a function object, completed
    by throwing it, in the same final state. *)
Theorem InvalidProceed_only_propagated natives AOP σ :
  loaded AOP σ →
  (∀ op obj method advice,
     (wrap op AOP obj method advice σ).1 ≠ Throw (InvalidProceed AOP))
  ∧ (∀ op obj method advice old σ',
       wrap op AOP obj method advice σ = (Return old, σ') →
       ∀ σi, later σ' σi →
       ∀ fuel r A σf,
         call natives fuel (member σ' obj method) r A σi
           = Some (Throw (InvalidProceed AOP), σf) →
         ∃ n g this args σa,
           fuel = S n ∧ (g = old ∨ g = advice)
           ∧ is_Some (function_code (heap_of σa) g)
           ∧ call natives n g this args σa
               = Some (Throw (InvalidProceed AOP), σf)).
Proof.
  intros Hloaded.
  destruct (loaded_taxonomy _ _ Hloaded) as (l & H1 & H2 & H3 & H4 & Hlen).
  split.
  - intros op obj method advice.
    destruct (wrap op AOP obj method advice σ) as [[v | e] σ'] eqn:Hwrap;
      simpl; [discriminate |].
    apply wrap_throw in Hwrap. rewrite H1, H2, H3, H4 in *.
    destruct Hwrap as [[_ [-> | [-> | ->]]] | [_ Herr]];
      try (intros [=]; lia).
    destruct (type_error_fresh σ) as (σ'' & Hfresh & _).
    rewrite Hfresh in Herr. injection Herr as -> _. intros [=]; lia.
  - intros op obj method advice old σ' Hwrap σi Hlater fuel r A σf Hcall.
    rewrite H4 in *.
    assert (∀ σa, later σi σa → (l + 3 < length (heap_of σa))%nat) as Hgrow.
    { intros σa Hσa.
      destruct (wrap_later _ _ _ _ _ _ _ _ Hwrap) as [H0 _].
      destruct Hlater as [Hi _]. destruct Hσa as [Ha _].
      apply extends_length in H0, Hi, Ha. lia. }
    destruct fuel as [| n]; [discriminate Hcall |]. exists n.
    pose proof (wrapper_persists AOP op _ _ _ _ _ _ _ Hwrap Hlater) as Hcode.
    rewrite call_S in Hcall. unfold apply in Hcall. rewrite Hcode in Hcall.
    pose proof (later_log (Called (member σ' obj method) r A) σi) as Hσ0.
    destruct op; simpl wrapper_code in Hcall; cbv beta iota zeta in Hcall.
    + destruct (call natives n advice r A _) as [[[tmp | e] σ1] |] eqn:Hadvice;
        try discriminate Hcall.
      * eexists old, r, _, σ1. split; [reflexivity |]. split; [auto |].
        split; [| exact Hcall].
        eapply thrown_by_function; [exact Hcall |].
        apply Hgrow. eapply later_trans; [exact Hσ0 |].
        eapply call_later, Hadvice.
      * injection Hcall as -> ->.
        eexists advice, r, A, _. split; [reflexivity |]. split; [auto |].
        split; [| exact Hadvice].
        eapply thrown_by_function; [exact Hadvice |]. apply Hgrow, Hσ0.
    + destruct (call natives n old r A _) as [[[tmp | e] σ1] |] eqn:Hold;
        try discriminate Hcall.
      * eexists advice, r, _, σ1. split; [reflexivity |]. split; [auto |].
        split; [| exact Hcall].
        eapply thrown_by_function; [exact Hcall |].
        apply Hgrow. eapply later_trans; [exact Hσ0 |].
        eapply call_later, Hold.
      * injection Hcall as -> ->.
        eexists old, r, A, _. split; [reflexivity |]. split; [auto |].
        split; [| exact Hold].
        eapply thrown_by_function; [exact Hold |]. apply Hgrow, Hσ0.
    + pose proof (later_alloc (arguments_object A)
                    (log (Called (member σ' obj method) r A) σi)) as Hσ1.
      destruct (alloc _ _) as [la σ1]. simpl in Hσ1.
      destruct (call natives n old r A σ1) as [[[v | e] σ2] |] eqn:Hold;
        try discriminate Hcall.
      destruct (call natives n advice r _ σ2) as [[[v | e'] σ3] |] eqn:Hadvice;
        try discriminate Hcall.
      injection Hcall as -> ->.
      eexists advice, r, _, σ2. split; [reflexivity |]. split; [auto |].
      split; [| exact Hadvice].
      eapply thrown_by_function; [exact Hadvice |].
      apply Hgrow. eapply later_trans; [exact Hσ0 |].
      eapply later_trans; [exact Hσ1 | eapply call_later, Hold].
    + pose proof (later_alloc (arguments_object A)
                    (log (Called (member σ' obj method) r A) σi)) as Hσ1.
      destruct (alloc _ _) as [la σ1]. simpl in Hσ1.
      eexists advice, r, _, σ1. split; [reflexivity |]. split; [auto |].
      split; [| exact Hcall].
      eapply thrown_by_function; [exact Hcall |].
      apply Hgrow. eapply later_trans; [exact Hσ0 | exact Hσ1].
Qed.

(** ** Wrapping a wrapper *)

Lemma callable_later h h' f :
  typeof h f = TFunction → extends h h' → is_Some (function_code h' f).
Proof.
  intros Hfun Hext. apply typeof_function_code.
  eapply typeof_extends; eassumption.
Qed.

(** C7, as the code has it.  Two [before] wraps of the same method in a
    row: the second captures the first wrapper as its original.  Invoking
    the final method runs the advice wrapped last first, then, through the
    first wrapper, the advice wrapped first, then the underlying
    original; the trace records the invocations in that order. *)
Theorem chained_before_composes natives AOP obj method advice1 advice2
    σ old σ1 old' σ2 :
  before AOP obj method advice1 σ = (Return old, σ1) →
  before AOP obj method advice2 σ1 = (Return old', σ2) →
  let w1 := member σ1 obj method in
  let w2 := member σ2 obj method in
  old' = w1
  ∧ function_code (heap_of σ2) w1 = Some (BeforeWrapper old advice1)
  ∧ function_code (heap_of σ2) w2 = Some (BeforeWrapper w1 advice2)
  ∧ ∀ σi, later σ2 σi →
    ∀ n r A tmp2 σa tmp1 σb,
      call natives (S n) advice2 r A (log (Called w2 r A) σi)
        = Some (Return tmp2, σa) →
      let A2 := before_arguments (heap_of σa) tmp2 A in
      call natives n advice1 r A2 (log (Called w1 r A2) σa)
        = Some (Return tmp1, σb) →
      call natives (S (S n)) w2 r A σi
        = call natives n old r (before_arguments (heap_of σb) tmp1 A2) σb
      ∧ ∃ evs2 evs1,
          trace σb =
            trace σi ++ Called w2 r A :: Called advice2 r A :: evs2
              ++ Called w1 r A2 :: Called advice1 r A2 :: evs1.
Proof.
  intros Hwrap1 Hwrap2 w1 w2.
  pose proof (wrap_later Before _ _ _ _ _ _ _ Hwrap2) as Hlater12.
  destruct (wrap_success _ Before _ _ _ _ _ _ Hwrap1)
    as (l1 & o1 & _ & _ & _ & Hfun1 & _ & _ & _ & _).
  destruct (wrap_success _ Before _ _ _ _ _ _ Hwrap2)
    as (l2 & o2 & _ & _ & _ & Hfun2 & _ & Hold' & _ & _).
  assert (old' = w1) as -> by exact Hold'.
  split; [reflexivity |].
  split; [exact (wrapper_persists AOP Before _ _ _ _ _ _ _ Hwrap1 Hlater12) |].
  split; [exact (wrap_installs AOP Before _ _ _ _ _ _ Hwrap2) |].
  intros σi Hlater n r A tmp2 σa tmp1 σb Hadvice2 A2 Hadvice1.
  pose proof (call_later _ _ _ _ _ _ _ _ Hadvice2) as Hσa.
  assert (later σ1 σa) as Hlater1a.
  { eapply later_trans; [exact Hlater12 |].
    eapply later_trans; [exact Hlater |].
    eapply later_trans; [apply later_log | exact Hσa]. }
  split.
  - pose proof (wrapper_persists AOP Before _ _ _ _ _ _ _ Hwrap2 Hlater)
      as Hcode2.
    pose proof (wrapper_persists AOP Before _ _ _ _ _ _ _ Hwrap1 Hlater1a)
      as Hcode1.
    fold w2 in Hcode2. fold w1 in Hcode1. simpl wrapper_code in Hcode1, Hcode2.
    rewrite call_S. unfold apply.
    rewrite Hcode2. cbv beta iota zeta. rewrite Hadvice2.
    fold A2. rewrite call_S. unfold apply.
    rewrite Hcode1. cbv beta iota zeta. rewrite Hadvice1.
    reflexivity.
  - destruct (call_recorded _ _ _ _ _ _ _ _ Hadvice2) as [evs2 Ht2].
    { eapply callable_later; [exact Hfun2 |].
      destruct Hlater12 as [H12 _]. destruct Hlater as [H2i _].
      rewrite extends_log. eapply extends_trans; eassumption. }
    destruct (call_recorded _ _ _ _ _ _ _ _ Hadvice1) as [evs1 Ht1].
    { eapply callable_later; [exact Hfun1 |].
      rewrite extends_log.
      destruct Hlater1a as [H1a _].
      destruct (wrap_later Before _ _ _ _ _ _ _ Hwrap1) as [H01 _].
      eapply extends_trans; eassumption. }
    exists evs2, evs1. rewrite Ht1. unfold log at 1. simpl trace.
    rewrite Ht2. unfold log at 1. simpl trace.
    rewrite <- !app_assoc. reflexivity.
Qed.

(** ** The scenario, run *)

Lemma example_wrap op method advice old :
  (wrap op example_AOP target (PString method) advice example_state).1
    = Return old →
  wrap op example_AOP target (PString method) advice example_state
    = (Return old, wrapped op method advice).
Proof.
  unfold wrapped. intros H.
  destruct (wrap op example_AOP target (PString method) advice example_state).
  simpl in *. congruence.
Qed.

(** The example of the specification: [greet("ann")] after
    [before(target, "greet", upper)] is ["Hello, ANN"]. *)
Example greet_before_upper :
  fst <$> call example_natives 3
            (member (wrapped Before "greet" upper) target (PString "greet"))
            target [VString "ann"] (wrapped Before "greet" upper)
  = Some (Return (VString "Hello, ANN")).
Proof. vm_compute. reflexivity. Qed.

(** An advice that returns an array replaces the argument list. *)
Example greet_before_swap :
  fst <$> call example_natives 3
            (member (wrapped Before "greet" swap) target (PString "greet"))
            target [VString "ann"; VString "bob"] (wrapped Before "greet" swap)
  = Some (Return (VString "Hello, bob")).
Proof. vm_compute. reflexivity. Qed.

Lemma before_advice_governs_arguments_witness :
  fst <$> call example_natives 3
            (member (wrapped Before "greet" silent) target (PString "greet"))
            target [VString "ann"] (wrapped Before "greet" silent)
    = Some (Return (VString "Hello, ann"))
  ∧ fst <$> call example_natives 3
              (member (wrapped Before "greet" swap) target (PString "greet"))
              target [VString "ann"; VString "bob"]
              (wrapped Before "greet" swap)
    = Some (Return (VString "Hello, bob"))
  ∧ fst <$> call example_natives 3
              (member (wrapped Before "greet" upper) target (PString "greet"))
              target [VString "ann"] (wrapped Before "greet" upper)
    = Some (Return (VString "Hello, ANN")).
Proof.
  split; [| split].
  - destruct (call example_natives 2 silent target [VString "ann"]
                (log (Called (member (wrapped Before "greet" silent) target
                                (PString "greet")) target [VString "ann"])
                   (wrapped Before "greet" silent)))
      as [[[tmp | e] σ1] |] eqn:Hadvice;
      try (vm_compute in Hadvice; discriminate Hadvice).
    pose proof Hadvice as Hvalue. vm_compute in Hvalue.
    injection Hvalue as <- <-.
    destruct (before_advice_governs_arguments example_natives example_AOP
                target (PString "greet") silent example_state greet
                (wrapped Before "greet" silent)
                ltac:(apply (example_wrap Before); vm_compute; reflexivity)
                _ (later_refl _) 2%nat target [VString "ann"] _ _ Hadvice)
      as (_ & Hundefined & _ & _).
    rewrite (Hundefined eq_refl). vm_compute. reflexivity.
  - destruct (call example_natives 2 swap target
                [VString "ann"; VString "bob"]
                (log (Called (member (wrapped Before "greet" swap) target
                                (PString "greet")) target
                        [VString "ann"; VString "bob"])
                   (wrapped Before "greet" swap)))
      as [[[tmp | e] σ1] |] eqn:Hadvice;
      try (vm_compute in Hadvice; discriminate Hadvice).
    pose proof Hadvice as Hvalue. vm_compute in Hvalue.
    injection Hvalue as <- <-.
    destruct (before_advice_governs_arguments example_natives example_AOP
                target (PString "greet") swap example_state greet
                (wrapped Before "greet" swap)
                ltac:(apply (example_wrap Before); vm_compute; reflexivity)
                _ (later_refl _) 2%nat target
                [VString "ann"; VString "bob"] _ _ Hadvice)
      as (_ & _ & Harray & _).
    rewrite (Harray _ (array_object [VString "bob"; VString "ann"])
               [VString "bob"; VString "ann"] eq_refl
               ltac:(vm_compute; reflexivity) (array_object_elements _)).
    vm_compute. reflexivity.
  - destruct (call example_natives 2 upper target [VString "ann"]
                (log (Called (member (wrapped Before "greet" upper) target
                                (PString "greet")) target [VString "ann"])
                   (wrapped Before "greet" upper)))
      as [[[tmp | e] σ1] |] eqn:Hadvice;
      try (vm_compute in Hadvice; discriminate Hadvice).
    pose proof Hadvice as Hvalue. vm_compute in Hvalue.
    injection Hvalue as <- <-.
    destruct (before_advice_governs_arguments example_natives example_AOP
                target (PString "greet") upper example_state greet
                (wrapped Before "greet" upper)
                ltac:(apply (example_wrap Before); vm_compute; reflexivity)
                _ (later_refl _) 2%nat target [VString "ann"] _ _ Hadvice)
      as (_ & _ & _ & Hother).
    rewrite Hother; [vm_compute; reflexivity | discriminate |].
    intros a o [=].
Defined.

Lemma after_advice_receives_result_witness :
  ∃ v σ1,
    call example_natives 2 greet target [VString "ann"]
      (log (Called (member (wrapped After "greet" upper) target
                      (PString "greet")) target [VString "ann"])
         (wrapped After "greet" upper))
      = Some (Return v, σ1)
    ∧ v = VString "Hello, ann"
    ∧ call example_natives 3
        (member (wrapped After "greet" upper) target (PString "greet"))
        target [VString "ann"] (wrapped After "greet" upper)
      = call example_natives 2 upper target [v] σ1.
Proof.
  eexists _, _. split; [vm_compute; reflexivity |].
  split; [reflexivity |].
  refine (proj2
    (after_advice_receives_result example_natives example_AOP
       target (PString "greet") upper example_state greet
       (wrapped After "greet" upper) _ _ (later_refl _)
       2%nat target [VString "ann"] _ _ _)).
  - apply (example_wrap After). vm_compute. reflexivity.
  - vm_compute. reflexivity.
Defined.

Example greet_after_upper :
  fst <$> call example_natives 3
            (member (wrapped After "greet" upper) target (PString "greet"))
            target [VString "ann"] (wrapped After "greet" upper)
  = Some (Return (VString "HELLO, ANN")).
Proof. vm_compute. reflexivity. Qed.

Lemma around_result_is_advice_result_witness :
  (λ res, (res.1, trace res.2)) <$>
    call example_natives 4
      (member (wrapped Around "greet" proceed) target (PString "greet"))
      target [VString "ann"] (wrapped Around "greet" proceed)
  = Some (Return (VString "Hello, ann"),
          [Called (member (wrapped Around "greet" proceed) target
                     (PString "greet")) target [VString "ann"];
           Called proceed target
             [greet; VRef (S (length (heap_of example_state)))];
           Called greet target [VString "ann"]])
  ∧ list_from_array_like
      (heap_of (alloc (arguments_object [VString "ann"])
                  (wrapped Around "greet" proceed)).2)
      (VRef (S (length (heap_of example_state)))) = [VString "ann"].
Proof.
  destruct (around_result_is_advice_result example_natives example_AOP
              target (PString "greet") proceed example_state greet
              (wrapped Around "greet" proceed)
              ltac:(apply (example_wrap Around); vm_compute; reflexivity)
              _ (later_refl _) 3%nat target [VString "ann"])
    as (Hargs & Hcall & _ & _).
  split.
  - rewrite Hcall. vm_compute. reflexivity.
  - vm_compute. reflexivity.
Defined.

Example greet_around_proceed :
  fst <$> call example_natives 4
            (member (wrapped Around "greet" proceed) target (PString "greet"))
            target [VString "ann"] (wrapped Around "greet" proceed)
  = Some (Return (VString "Hello, ann")).
Proof. vm_compute. reflexivity. Qed.

(** [around] with an advice that never proceeds: the original is not
    invoked and the result is that of the advice. *)
Example greet_around_silent :
  (λ r, (r.1, callee <$> trace r.2)) <$>
    call example_natives 4
      (member (wrapped Around "greet" silent) target (PString "greet"))
      target [VString "ann"] (wrapped Around "greet" silent)
  = Some (Return VUndefined,
          [member (wrapped Around "greet" silent) target (PString "greet");
           silent]).
Proof. vm_compute. reflexivity. Qed.

Lemma handle_intercepts_throw_witness :
  let w := member (wrapped Handle "fail" silent) target (PString "fail") in
  let entry :=
    alloc (arguments_object [VString "boom"])
      (log (Called w target [VString "boom"])
         (wrapped Handle "fail" silent)) in
  ∃ σ2,
    call example_natives 2 fail target [VString "boom"] entry.2
      = Some (Throw (VString "boom"), σ2)
    ∧ call example_natives 3 w target [VString "boom"]
        (wrapped Handle "fail" silent)
      = match call example_natives 2 silent target
                [VString "boom"; VRef entry.1] σ2 with
        | Some (Return _, σ3) => Some (Return VUndefined, σ3)
        | other => other
        end.
Proof.
  intros w entry.
  destruct (handle_intercepts_throw example_natives example_AOP
              target (PString "fail") silent example_state fail
              (wrapped Handle "fail" silent)
              ltac:(apply (example_wrap Handle); vm_compute; reflexivity)
              _ (later_refl _) 2%nat target [VString "boom"])
    as (_ & Hthrow & _).
  fold w in Hthrow. fold entry in Hthrow.
  destruct (call example_natives 2 fail target [VString "boom"] entry.2)
    as [[[v | E] σ2] |] eqn:Hfail;
    try (vm_compute in Hfail; discriminate Hfail).
  exists σ2.
  assert (E = VString "boom") as ->.
  { vm_compute in Hfail. congruence. }
  split; [reflexivity |].
  apply Hthrow. reflexivity.
Defined.

(** [fail("boom")] under [handle]: the advice is invoked after the
    original, with the error first, and the wrapper returns [undefined]. *)
Example fail_handled :
  (λ r, (r.1, callee <$> trace r.2)) <$>
    call example_natives 3
      (member (wrapped Handle "fail" silent) target (PString "fail"))
      target [VString "boom"] (wrapped Handle "fail" silent)
  = Some (Return VUndefined,
          [member (wrapped Handle "fail" silent) target (PString "fail");
           fail; silent]).
Proof. vm_compute. reflexivity. Qed.

(** [greet("ann")] under [handle]: the original returns, the advice is not
    invoked, and the value is dropped. *)
Example greet_handled :
  (λ r, (r.1, callee <$> trace r.2)) <$>
    call example_natives 3
      (member (wrapped Handle "greet" silent) target (PString "greet"))
      target [VString "ann"] (wrapped Handle "greet" silent)
  = Some (Return VUndefined,
          [member (wrapped Handle "greet" silent) target (PString "greet");
           greet]).
Proof. vm_compute. reflexivity. Qed.


(** Every operation returns the old [greet] and leaves that function
    object as it was. *)
Example wrap_returns_greet :
  Forall (λ op,
    (wrap op example_AOP target (PString "greet") upper example_state).1
      = Return greet
    ∧ heap_of (wrapped op "greet" upper) !! 0%nat = Some (example_function 0))
    [Before; After; Handle; Around].
Proof. repeat constructor; vm_compute; reflexivity. Qed.

(** C8 fails on the code: [count] is the number 5, not a callable, and the
    wrap completes, returning 5. *)
Lemma wrap_accepts_data_member :
  before example_AOP target (PString "count") upper example_state
    = (Return (VNum 5), wrapped Before "count" upper)
  ∧ typeof (heap_of example_state)
      (member example_state target (PString "count")) = TNumber
  ∧ TNumber ≠ TFunction.
Proof.
  split; [| split].
  - apply (example_wrap Before). vm_compute. reflexivity.
  - vm_compute. reflexivity.
  - discriminate.
Qed.

Lemma wrap_requires_defined_member_witness :
  member example_state target (PString "count") ≠ VUndefined
  ∧ truthy (PString "count") = true
  ∧ typeof (heap_of example_state) target = TObject
  ∧ typeof (heap_of example_state) upper = TFunction.
Proof.
  apply (wrap_requires_defined_member Before example_AOP target
           (PString "count") upper example_state (VNum 5)
           (wrapped Before "count" upper)).
  apply (example_wrap Before). vm_compute. reflexivity.
Defined.

(** The wrapper installed over the data member fails only when invoked:
    applying 5 is a TypeError of the host. *)
Example count_wrapper_invoked :
  (λ r, match r.1 with
        | Throw (VRef e) => cls <$> heap_of r.2 !! e
        | _ => None
        end) <$>
    call example_natives 3
      (member (wrapped Before "count" silent) target (PString "count"))
      target [] (wrapped Before "count" silent)
  = Some (Some (ErrorC "TypeError")).
Proof. vm_compute. reflexivity. Qed.

(** C10 fails on the code: with target [null], a callable advice and the
    empty method name, the wrap raises [InvalidMethod], an error of the
    taxonomy. *)
Lemma null_target_empty_method :
  typeof (heap_of example_state) upper = TFunction
  ∧ before example_AOP VNull (PString EmptyString) upper example_state
      = (Throw (InvalidMethod example_AOP), example_state)
  ∧ InvalidMethod example_AOP ∈ taxonomy example_AOP.
Proof.
  split; [vm_compute; reflexivity |].
  split; [vm_compute; reflexivity |].
  unfold taxonomy. apply list_elem_of_further, list_elem_of_here.
Qed.

Lemma null_target_escapes_validation_witness :
  (truthy (PString "greet") = true →
     ∃ e σ', before example_AOP VNull (PString "greet") upper example_state
               = (Throw (VRef e), σ')
             ∧ heap_of σ' !! e = Some (Object (ErrorC "TypeError") ∅ None)
             ∧ VRef e ∉ taxonomy example_AOP)
  ∧ (truthy (PString "greet") = false →
     before example_AOP VNull (PString "greet") upper example_state
       = (Throw (InvalidMethod example_AOP), example_state)).
Proof.
  apply (null_target_escapes_validation Before example_AOP (PString "greet")
           upper example_state).
  - exists (State example_heap []). split; [reflexivity | apply later_refl].
  - vm_compute. reflexivity.
Defined.

(** C4 fails on the code at a [null] target.  With an advice that is not
    callable the wrap raises [InvalidAspect], not [InvalidObject]; with a
    callable advice and a method name it raises a TypeError of the host,
    which is none of the errors of the namespace. *)
Lemma null_target_passes_object_check :
  before example_AOP VNull (PString "greet") (VNum 5) example_state
    = (Throw (InvalidAspect example_AOP), example_state)
  ∧ InvalidAspect example_AOP ≠ InvalidObject example_AOP
  ∧ Forall (λ e,
       (before example_AOP VNull (PString "greet") upper example_state).1
         ≠ Throw e) (taxonomy example_AOP).
Proof.
  split; [vm_compute; reflexivity |].
  split; [vm_compute; discriminate |].
  repeat constructor; vm_compute; discriminate.
Qed.

(** The checks in their order on the example target. *)
Example validation_examples :
  (before example_AOP (VString "text") (PString "greet") (VNum 5)
     example_state).1 = Throw (InvalidObject example_AOP)
  ∧ (before example_AOP upper (PString "greet") upper example_state).1
      = Throw (InvalidObject example_AOP)
  ∧ (before example_AOP target (PString EmptyString) (VNum 5) example_state).1
      = Throw (InvalidAspect example_AOP)
  ∧ (before example_AOP target (PString EmptyString) upper example_state).1
      = Throw (InvalidMethod example_AOP)
  ∧ (before example_AOP target PUndefined upper example_state).1
      = Throw (InvalidMethod example_AOP)
  ∧ (before example_AOP target (PString "missing") upper example_state).1
      = Throw (InvalidMethod example_AOP).
Proof. repeat split; vm_compute; reflexivity. Qed.

Lemma quiet_natives_clean e id this args :
  does_not_throw e (quiet_natives id this args).
Proof.
  unfold quiet_natives, example_natives.
  repeat (case_match; simpl; try discriminate; auto).
Qed.

Lemma InvalidProceed_never_raised_witness :
  (∀ op obj method advice,
     (wrap op example_AOP obj method advice example_state).1
       ≠ Throw (InvalidProceed example_AOP))
  ∧ (∀ fuel f this args c σ',
       call quiet_natives fuel f this args example_state = Some (c, σ') →
       c ≠ Throw (InvalidProceed example_AOP)).
Proof.
  apply (InvalidProceed_never_raised quiet_natives example_AOP example_state).
  - exists (State example_heap []). split; [reflexivity | apply later_refl].
  - intros id this args. apply quiet_natives_clean.
Defined.

(** C9 fails on the code: with the advice [fail], which throws its
    argument, the method installed by [before] raises [InvalidProceed] when
    it is invoked on that error object. *)
Lemma installed_wrapper_propagates_InvalidProceed :
  before example_AOP target (PString "greet") fail example_state
    = (Return greet, wrapped Before "greet" fail)
  ∧ fst <$> call example_natives 3
              (member (wrapped Before "greet" fail) target (PString "greet"))
              target [InvalidProceed example_AOP]
              (wrapped Before "greet" fail)
    = Some (Throw (InvalidProceed example_AOP)).
Proof.
  split; [apply (example_wrap Before) |]; vm_compute; reflexivity.
Qed.

Lemma InvalidProceed_only_propagated_witness :
  (∀ op obj method advice,
     (wrap op example_AOP obj method advice example_state).1
       ≠ Throw (InvalidProceed example_AOP))
  ∧ ∃ σf n g this args σa,
      call example_natives 3
        (member (wrapped Before "greet" fail) target (PString "greet"))
        target [InvalidProceed example_AOP] (wrapped Before "greet" fail)
        = Some (Throw (InvalidProceed example_AOP), σf)
      ∧ 3%nat = S n ∧ (g = greet ∨ g = fail)
      ∧ is_Some (function_code (heap_of σa) g)
      ∧ call example_natives n g this args σa
          = Some (Throw (InvalidProceed example_AOP), σf).
Proof.
  destruct (InvalidProceed_only_propagated example_natives example_AOP
              example_state)
    as [Hwrap Hinvoke].
  { exists (State example_heap []). split; [reflexivity | apply later_refl]. }
  split; [exact Hwrap |].
  destruct (call example_natives 3
              (member (wrapped Before "greet" fail) target (PString "greet"))
              target [InvalidProceed example_AOP]
              (wrapped Before "greet" fail))
    as [[[v | e] σf] |] eqn:Hcall;
    try (vm_compute in Hcall; discriminate Hcall).
  assert (e = InvalidProceed example_AOP) as ->.
  { pose proof Hcall as Hvalue. vm_compute in Hvalue.
    injection Hvalue as <- _. reflexivity. }
  destruct (Hinvoke Before target (PString "greet") fail greet
              (wrapped Before "greet" fail)
              ltac:(apply (example_wrap Before); vm_compute; reflexivity)
              _ (later_refl _) 3%nat target [InvalidProceed example_AOP]
              σf Hcall)
    as (n & g & this & args & σa & Hfuel & Hg & Hfun & Hthrown).
  exists σf, n, g, this, args, σa. auto.
Defined.

(** C7 fails on the code: after wrapping [greet] with [silent] and then
    with [upper], an invocation runs [upper], the advice wrapped last,
    before [silent]. *)
Lemma chained_before_runs_last_advice_first :
  before example_AOP target (PString "greet") silent example_state
    = (Return greet, wrapped Before "greet" silent)
  ∧ (before example_AOP target (PString "greet") upper
       (wrapped Before "greet" silent)).1
    = Return (member (wrapped Before "greet" silent) target (PString "greet"))
  ∧ (λ r, (r.1, callee <$> trace r.2,
           runs_before silent upper (trace r.2))) <$>
      call example_natives 4 (member chained target (PString "greet"))
        target [VString "ann"] chained
    = Some (Return (VString "Hello, ANN"),
            [member chained target (PString "greet"); upper;
             member (wrapped Before "greet" silent) target (PString "greet");
             silent; greet],
            false).
Proof.
  split; [apply (example_wrap Before); vm_compute; reflexivity |].
  split; vm_compute; reflexivity.
Qed.

Lemma chained_before_composes_witness :
  let w1 := member (wrapped Before "greet" silent) target (PString "greet") in
  let w2 := member chained target (PString "greet") in
  function_code (heap_of chained) w1 = Some (BeforeWrapper greet silent)
  ∧ function_code (heap_of chained) w2 = Some (BeforeWrapper w1 upper)
  ∧ ∃ tmp2 σa tmp1 σb,
      call example_natives 2 upper target [VString "ann"]
        (log (Called w2 target [VString "ann"]) chained)
        = Some (Return tmp2, σa)
      ∧ call example_natives 1 silent target
          (before_arguments (heap_of σa) tmp2 [VString "ann"])
          (log (Called w1 target
                  (before_arguments (heap_of σa) tmp2 [VString "ann"])) σa)
        = Some (Return tmp1, σb)
      ∧ call example_natives 3 w2 target [VString "ann"] chained
        = call example_natives 1 greet target
            (before_arguments (heap_of σb) tmp1
               (before_arguments (heap_of σa) tmp2 [VString "ann"])) σb.
Proof.
  intros w1 w2.
  destruct (chained_before_composes example_natives example_AOP target
              (PString "greet") silent upper example_state greet
              (wrapped Before "greet" silent) w1 chained)
    as (_ & H1 & H2 & Hinvoke).
  - apply (example_wrap Before). vm_compute. reflexivity.
  - unfold chained.
    destruct (before example_AOP target (PString "greet") upper
                (wrapped Before "greet" silent)) as [c σ'] eqn:Hb.
    assert (c = Return w1) as ->.
    { change c with (c, σ').1. rewrite <- Hb. vm_compute. reflexivity. }
    reflexivity.
  - split; [exact H1 |]. split; [exact H2 |].
    fold w1 w2 in Hinvoke.
    destruct (call example_natives 2 upper target [VString "ann"]
                (log (Called w2 target [VString "ann"]) chained))
      as [[[tmp2 | e2] σa] |] eqn:Hupper;
      try (vm_compute in Hupper; discriminate Hupper).
    destruct (call example_natives 1 silent target
                (before_arguments (heap_of σa) tmp2 [VString "ann"])
                (log (Called w1 target
                        (before_arguments (heap_of σa) tmp2 [VString "ann"]))
                   σa))
      as [[[tmp1 | e1] σb] |] eqn:Hsilent.
    + exists tmp2, σa, tmp1, σb. split; [reflexivity |].
      split; [exact Hsilent |].
      exact (proj1 (Hinvoke chained (later_refl _) 1%nat target
                      [VString "ann"] tmp2 σa tmp1 σb Hupper Hsilent)).
    + exfalso. vm_compute in Hupper. injection Hupper as <- <-.
      vm_compute in Hsilent. discriminate Hsilent.
    + exfalso. vm_compute in Hupper. injection Hupper as <- <-.
      vm_compute in Hsilent. discriminate Hsilent.
Defined.

(** ** What a wrap leaves alone *)

Lemma wrap_success_heap op AOP obj method fun_ σ old σ' :
  wrap op AOP obj method fun_ σ = (Return old, σ') →
  ∃ l o,
    obj = VRef l ∧ heap_of σ !! l = Some o
    ∧ old = member σ obj method
    ∧ heap_of σ' =
        <[l := set_prop (to_key method) (VRef (length (heap_of σ))) o]>
          (heap_of σ)
        ++ [Object (FunctionC (wrapper_code op old fun_)) ∅ None]
    ∧ trace σ' = trace σ.
Proof.
  intros Hwrap.
  destruct (wrap_success _ _ _ _ _ _ _ _ Hwrap)
    as (l & o & -> & Hl & _ & _ & _ & Hold & _ & ->).
  exists l, o. repeat split; try assumption.
  apply installed_heap, Hl.
Qed.

Lemma wrap_success_target op AOP l method fun_ σ old σ' o :
  wrap op AOP (VRef l) method fun_ σ = (Return old, σ') →
  heap_of σ !! l = Some o →
  heap_of σ' !! l =
    Some (Object (cls o)
            (<[to_key method := VRef (length (heap_of σ))]> (props o))
            (proto o))
  ∧ length (heap_of σ') = S (length (heap_of σ))
  ∧ (∀ l', l' ≠ l → (l' < length (heap_of σ))%nat →
       heap_of σ' !! l' = heap_of σ !! l').
Proof.
  intros Hwrap Hl.
  destruct (wrap_success_heap _ _ _ _ _ _ _ _ Hwrap)
    as (l0 & o0 & [= <-] & Hl0 & _ & -> & _).
  rewrite Hl in Hl0. injection Hl0 as <-.
  pose proof (lookup_lt_Some _ _ _ Hl) as Hlt.
  repeat split.
  - rewrite lookup_app_l by (rewrite length_insert; exact Hlt).
    apply list_lookup_insert_eq. exact Hlt.
  - rewrite length_app, length_insert. simpl. lia.
  - intros l' Hne Hlt'.
    rewrite lookup_app_l by (rewrite length_insert; exact Hlt').
    apply list_lookup_insert_ne. congruence.
Qed.

(** X2.  A wrap that throws has installed nothing: the trace and every
    object of the heap are as before; at most the error object of the
    host's TypeError is new. *)
Theorem wrap_failure_touches_nothing op AOP obj method fun_ σ e σ' :
  wrap op AOP obj method fun_ σ = (Throw e, σ') →
  trace σ' = trace σ
  ∧ (∀ l o, heap_of σ !! l = Some o → heap_of σ' !! l = Some o)
  ∧ (length (heap_of σ') ≤ S (length (heap_of σ)))%nat.
Proof.
  intros Hwrap. apply wrap_throw in Hwrap.
  destruct Hwrap as [[-> _] | [_ Herr]].
  - repeat split; auto.
  - unfold throw_type_error, alloc in Herr. injection Herr as _ ->.
    simpl. repeat split.
    + intros l o Hl. apply lookup_app_l_Some, Hl.
    + rewrite length_app. simpl. lia.
Qed.

(** X3.  A successful wrap writes one slot: the target keeps its class,
    its prototype and its other own properties, the slot refers to the one
    new object, the wrapper, every other object is as before, and nothing
    is invoked. *)
Theorem wrap_changes_one_slot op AOP obj method fun_ σ old σ' :
  wrap op AOP obj method fun_ σ = (Return old, σ') →
  ∃ l o,
    obj = VRef l ∧ heap_of σ !! l = Some o
    ∧ heap_of σ' !! l =
        Some (Object (cls o)
                (<[to_key method := VRef (length (heap_of σ))]> (props o))
                (proto o))
    ∧ heap_of σ' !! length (heap_of σ) =
        Some (Object (FunctionC (wrapper_code op old fun_)) ∅ None)
    ∧ length (heap_of σ') = S (length (heap_of σ))
    ∧ (∀ l', l' ≠ l → (l' < length (heap_of σ))%nat →
         heap_of σ' !! l' = heap_of σ !! l')
    ∧ trace σ' = trace σ.
Proof.
  intros Hwrap.
  destruct (wrap_success_heap _ _ _ _ _ _ _ _ Hwrap)
    as (l & o & -> & Hl & _ & Hheap & Htrace).
  destruct (wrap_success_target _ _ _ _ _ _ _ _ _ Hwrap Hl)
    as (Hl' & Hlen & Hothers).
  exists l, o. repeat split; try assumption.
  rewrite Hheap. rewrite lookup_app_r by (rewrite length_insert; lia).
  rewrite length_insert.
  replace (length (heap_of σ) - length (heap_of σ))%nat with 0%nat by lia.
  reflexivity.
Qed.

(** X4.  Undoing a wrap by hand: assigning the returned value back to the
    slot makes the member the old value again, and when the member was an
    own property of the target, the target object is exactly as it was
    before the wrap. *)
Theorem restore_original op AOP obj method fun_ σ old σ' :
  wrap op AOP obj method fun_ σ = (Return old, σ') →
  ∃ σ'',
    set obj method old σ' = (Return old, σ'')
    ∧ member σ'' obj method = old
    ∧ (∀ l o, obj = VRef l → heap_of σ !! l = Some o →
         props o !! to_key method = Some old → heap_of σ'' !! l = Some o).
Proof.
  intros Hwrap.
  destruct (wrap_success_heap _ _ _ _ _ _ _ _ Hwrap)
    as (l & o & -> & Hl & _ & _ & _).
  destruct (wrap_success_target _ _ _ _ _ _ _ _ _ Hwrap Hl) as (Hl' & _ & _).
  exists (store l (to_key method) old σ'). split; [reflexivity |].
  assert (heap_of (store l (to_key method) old σ') !! l =
          Some (Object (cls o) (<[to_key method := old]> (props o)) (proto o)))
    as Hrestored.
  { unfold store. simpl. rewrite list_lookup_alter_eq, Hl'. simpl.
    unfold set_prop. simpl. rewrite insert_insert_eq. reflexivity. }
  split.
  - unfold member, get_member. simpl default.
    eapply lookup_chain_own; [exact Hrestored |]. simpl.
    apply lookup_insert_eq.
  - intros l0 o0 [= <-] Hl0 Hown. rewrite Hl in Hl0. injection Hl0 as <-.
    rewrite Hrestored. rewrite insert_id by exact Hown.
    destruct o. reflexivity.
Qed.

(** X5.  Wrapping a method that the target inherits shadows it on the
    target only: the value returned is the inherited one, the prototype
    object is not written, the target gets an own slot with the wrapper,
    and every other object inheriting from the same prototype still
    resolves the member to the inherited value. *)
Theorem wrap_shadows_inherited_method op AOP l method fun_ σ old σ' o p po f :
  wrap op AOP (VRef l) method fun_ σ = (Return old, σ') →
  heap_of σ !! l = Some o →
  props o !! to_key method = None → proto o = Some p →
  heap_of σ !! p = Some po → props po !! to_key method = Some f →
  old = f
  ∧ heap_of σ' !! p = Some po
  ∧ member σ' (VRef l) method = VRef (length (heap_of σ))
  ∧ (∀ l' o', l' ≠ l → heap_of σ !! l' = Some o' →
       props o' !! to_key method = None → proto o' = Some p →
       member σ' (VRef l') method = f).
Proof.
  intros Hwrap Hl Hown Hproto Hp Hf.
  assert (p ≠ l) as Hpl.
  { intros ->. rewrite Hl in Hp. injection Hp as <-. congruence. }
  pose proof (lookup_lt_Some _ _ _ Hl) as Hlt.
  pose proof (lookup_lt_Some _ _ _ Hp) as Hplt.
  destruct (wrap_success_target _ _ _ _ _ _ _ _ _ Hwrap Hl)
    as (Hl' & Hlen & Hothers).
  destruct (wrap_success _ _ _ _ _ _ _ _ Hwrap)
    as (_ & _ & _ & _ & _ & _ & _ & Hold & _ & _).
  assert (heap_of σ' !! p = Some po) as Hp'.
  { rewrite Hothers by assumption. exact Hp. }
  split; [| split; [exact Hp' | split]].
  - rewrite Hold. unfold member, get_member. simpl default.
    destruct (length (heap_of σ)) as [| n] eqn:Hn; [lia |].
    simpl. rewrite Hl, Hown, Hproto.
    eapply lookup_chain_own; eassumption.
  - unfold member, get_member. simpl default.
    eapply lookup_chain_own; [exact Hl' |]. simpl. apply lookup_insert_eq.
  - intros l' o' Hne Hl1 Hown' Hproto'.
    pose proof (lookup_lt_Some _ _ _ Hl1) as Hlt'.
    unfold member, get_member. simpl default. rewrite Hlen.
    simpl. rewrite Hothers by assumption. rewrite Hl1, Hown', Hproto'.
    eapply lookup_chain_own; eassumption.
Qed.

Lemma lookup_past (h l : heap) (i : nat) :
  (h ++ l) !! (length h + i)%nat = l !! i.
Proof.
  rewrite lookup_app_r by lia. f_equal. lia.
Qed.

Lemma load_shape σ :
  load σ =
    (Namespace (VRef (length (heap_of σ) + 0)) (VRef (length (heap_of σ) + 1))
       (VRef (length (heap_of σ) + 2)) (VRef (length (heap_of σ) + 3)),
     State (heap_of σ ++
              [error_object "unable to add aop function to non-object";
               error_object "unknown method";
               error_object "can only add functions";
               error_object "you can not call proceed from here"])
       (trace σ)).
Proof.
  destruct σ as [h t]. unfold load, alloc. simpl.
  rewrite !length_app. simpl length. rewrite <- !app_assoc. simpl.
  f_equal. f_equal; f_equal; lia.
Qed.

(** X11.  Loading the library creates four new error objects, pairwise
    distinct, each carrying its message, and leaves every existing object
    as it was. *)
Theorem load_creates_distinct_errors σ :
  NoDup (taxonomy (load σ).1)
  ∧ loaded (load σ).1 (load σ).2
  ∧ Forall (λ e, ∃ l, e = VRef l ∧ (length (heap_of σ) ≤ l)%nat
                   ∧ typeof (heap_of (load σ).2) e = TObject)
      (taxonomy (load σ).1)
  ∧ (member (load σ).2 (InvalidObject (load σ).1) (PString "message"),
     member (load σ).2 (InvalidMethod (load σ).1) (PString "message"),
     member (load σ).2 (InvalidAspect (load σ).1) (PString "message"),
     member (load σ).2 (InvalidProceed (load σ).1) (PString "message"))
    = (VString "unable to add aop function to non-object",
       VString "unknown method",
       VString "can only add functions",
       VString "you can not call proceed from here")
  ∧ (∀ l o, heap_of σ !! l = Some o → heap_of (load σ).2 !! l = Some o).
Proof.
  split; [| split; [| split; [| split]]].
  - rewrite load_shape. unfold taxonomy. simpl.
    repeat (apply NoDup_cons; split;
            [rewrite ?elem_of_cons, elem_of_nil; intros H;
             repeat (destruct H as [[= H] | H]; [lia |]); exact H |]).
    apply NoDup_nil. exact I.
  - exists σ. split; [reflexivity | apply later_refl].
  - rewrite load_shape. unfold taxonomy, typeof. simpl.
    repeat (apply Forall_cons_2); try apply Forall_nil_2;
      (eexists; split; [reflexivity | split; [lia |]]);
      rewrite lookup_past; reflexivity.
  - rewrite load_shape. unfold member, get_member. simpl.
    repeat f_equal;
      (eapply lookup_chain_own;
       [rewrite lookup_past; reflexivity | apply lookup_singleton_eq]).
  - intros l o Hl. rewrite load_shape. simpl.
    apply lookup_app_l_Some, Hl.
Qed.

(** ** Errors and compositions at invocation *)

Lemma list_from_array_like_own (h : heap) l o vs :
  h !! l = Some o → props o = array_like_props vs →
  list_from_array_like h (VRef l) = vs.
Proof.
  intros Hl Hprops. unfold list_from_array_like, array_like_length.
  rewrite (lookup_chain_own _ _ _ o "length" (VNum (Z.of_nat (length vs))) Hl)
    by (rewrite Hprops; apply array_like_props_length).
  cbv beta iota. rewrite Nat2Z.id.
  apply list_eq. intros i. rewrite list_lookup_fmap.
  destruct (decide (i < length vs)%nat) as [Hlt | Hge].
  - rewrite lookup_seq_lt by assumption. simpl.
    destruct (lookup_lt_is_Some_2 vs i Hlt) as [v Hv].
    rewrite (lookup_chain_own _ _ _ o (pretty i) v Hl)
      by (rewrite Hprops, array_like_props_index; exact Hv).
    symmetry. exact Hv.
  - rewrite lookup_seq_ge by lia. simpl.
    symmetry. apply lookup_ge_None. lia.
Qed.

Section Propagation.

Variable natives : nat → value → list value → prog.
Variable AOP : namespace.

(** X8.  When the original of an [after] wrapper throws, the wrapper throws
    the same value in the state the original left: the advice is not
    applied. *)
Theorem after_original_throws target method advice σ old σ' σi n r A e σ1 :
  after AOP target method advice σ = (Return old, σ') →
  later σ' σi →
  call natives n old r A (log (Called (member σ' target method) r A) σi)
    = Some (Throw e, σ1) →
  call natives (S n) (member σ' target method) r A σi = Some (Throw e, σ1).
Proof.
  intros Hwrap Hlater Hold.
  pose proof (wrapper_persists AOP After _ _ _ _ _ _ _ Hwrap Hlater) as Hcode.
  simpl wrapper_code in Hcode.
  rewrite call_S. unfold apply. rewrite Hcode. cbv beta iota zeta.
  rewrite Hold. reflexivity.
Qed.

(** X13.  When the advice of a [before] wrapper returns an Array holding
    the values [vs], the original is applied to exactly [vs], whatever the
    arguments of the invocation were. *)
Theorem before_array_result_spreads target method advice σ old σ' σi
    n r A a o vs σ1 :
  before AOP target method advice σ = (Return old, σ') →
  later σ' σi →
  call natives n advice r A (log (Called (member σ' target method) r A) σi)
    = Some (Return (VRef a), σ1) →
  heap_of σ1 !! a = Some o → cls o = ArrayC → props o = array_like_props vs →
  call natives (S n) (member σ' target method) r A σi
    = call natives n old r vs σ1.
Proof.
  intros Hwrap Hlater Hadvice Ha Hcls Hprops.
  pose proof (wrapper_persists AOP Before _ _ _ _ _ _ _ Hwrap Hlater) as Hcode.
  simpl wrapper_code in Hcode.
  rewrite call_S. unfold apply. rewrite Hcode. cbv beta iota zeta.
  rewrite Hadvice. unfold before_arguments.
  rewrite decide_False by discriminate.
  assert (instanceof_Array (heap_of σ1) (VRef a) = true) as ->.
  { unfold instanceof_Array. rewrite Ha. destruct o as [c ps pr].
    simpl in Hcls. subst c. reflexivity. }
  rewrite (list_from_array_like_own _ _ _ _ Ha Hprops). reflexivity.
Qed.

(** X9.  A [handle] wrapper over a member that is a primitive value, not a
    function: every invocation fails to apply the original with a new
    TypeError object of the host, which the wrapper catches and hands to
    the advice together with the arguments object.  When the advice
    returns, the wrapper returns [undefined] in the state the advice left,
    and the trace shows the advice invoked right after the wrapper, on
    the error and the arguments object; when the advice is a function of
    the user, the wrapper completes as the run of its body does, with
    [undefined] for a returned value. *)
Theorem handle_reports_uncallable_member target method advice σ p σ' :
  handle AOP target method advice σ = (Return (VPrim p), σ') →
  ∀ σi, later σ' σi →
  ∀ n r A,
    let w := member σ' target method in
    let entry := alloc (arguments_object A) (log (Called w r A) σi) in
    let error := length (heap_of entry.2) in
    let σ2 := (throw_type_error entry.2).2 in
    let args := [VRef error; VRef entry.1] in
    heap_of σ2 !! error = Some (Object (ErrorC "TypeError") ∅ None)
    ∧ call natives (S (S n)) w r A σi =
        match call natives (S n) advice r args σ2 with
        | Some (Return _, σ3) => Some (Return VUndefined, σ3)
        | other => other
        end
    ∧ (∀ v σ3,
         call natives (S n) advice r args σ2 = Some (Return v, σ3) →
         call natives (S (S n)) w r A σi = Some (Return VUndefined, σ3)
         ∧ ∃ evs, trace σ3 =
                    trace σi ++ Called w r A :: Called advice r args :: evs)
    ∧ (∀ id,
         function_code (heap_of σi) advice = Some (Native id) →
         call natives (S (S n)) w r A σi =
           match run (call natives n) (natives id r args)
                   (log (Called advice r args) σ2) with
           | Some (Return _, σ3) => Some (Return VUndefined, σ3)
           | other => other
           end).
Proof.
  intros Hwrap σi Hlater n r A w entry error σ2 args.
  pose proof (wrapper_persists AOP Handle _ _ _ _ _ _ _ Hwrap Hlater) as Hcode.
  fold w in Hcode. simpl wrapper_code in Hcode.
  assert (call natives (S (S n)) w r A σi =
          match call natives (S n) advice r args σ2 with
          | Some (Return _, σ3) => Some (Return VUndefined, σ3)
          | other => other
          end) as Hcall.
  { rewrite call_S. unfold apply at 1. rewrite Hcode. cbv beta iota zeta.
    subst args. fold entry. subst σ2 error. destruct entry as [la σ1].
    rewrite call_S. unfold apply at 1. cbn [function_code snd].
    unfold throw_type_error, alloc. reflexivity. }
  assert (later σi σ2) as Hσ2.
  { eapply later_trans; [apply later_log |].
    eapply later_trans; [apply later_alloc | apply later_type_error]. }
  split.
  { apply (alloc_lookup_new (Object (ErrorC "TypeError") ∅ None) entry.2). }
  split; [exact Hcall |].
  split.
  - intros v σ3 Hadvice. split; [rewrite Hcall, Hadvice; reflexivity |].
    destruct (wrap_success _ Handle _ _ _ _ _ _ Hwrap)
      as (l & o & _ & _ & _ & Hfun & _ & _ & _ & _).
    destruct (call_recorded _ _ _ _ _ _ _ _ Hadvice) as [evs Ht].
    { apply typeof_function_code.
      eapply typeof_extends; [| exact Hfun].
      destruct (wrap_later Handle _ _ _ _ _ _ _ Hwrap) as [H0 _].
      destruct Hlater as [H1 _]. destruct Hσ2 as [H2 _].
      eapply extends_trans; [exact H0 |].
      eapply extends_trans; [exact H1 | exact H2]. }
    exists evs. rewrite Ht.
    unfold σ2, entry, throw_type_error, alloc, log. simpl.
    rewrite <- app_assoc. reflexivity.
  - intros id Hid. rewrite Hcall, call_S. unfold apply.
    destruct Hσ2 as [Hext _].
    rewrite (function_code_extends _ _ _ _ Hext Hid). reflexivity.
Qed.

(** X10.  An [after] wrapper over a member that is a primitive value: every
    invocation throws the TypeError of the host at once, and the advice is
    never applied. *)
Theorem after_over_uncallable_member target method advice σ p σ' :
  after AOP target method advice σ = (Return (VPrim p), σ') →
  ∀ σi, later σ' σi →
  ∀ n r A,
    let w := member σ' target method in
    call natives (S (S n)) w r A σi
      = Some (throw_type_error (log (Called w r A) σi)).
Proof.
  intros Hwrap σi Hlater n r A w.
  pose proof (wrapper_persists AOP After _ _ _ _ _ _ _ Hwrap Hlater) as Hcode.
  fold w in Hcode. simpl wrapper_code in Hcode.
  rewrite call_S. unfold apply at 1. rewrite Hcode. cbv beta iota zeta.
  rewrite call_S. unfold apply at 1. cbn [function_code].
  unfold throw_type_error. destruct (alloc _ _). reflexivity.
Qed.

(** X6.  [handle] wrapped over [before]: when the advice of the inner
    [before] wrapper throws [E], the outer wrapper catches it and applies
    the handler to [E] and its arguments object; the underlying original
    is not applied. *)
Theorem handle_catches_throw_of_inner_advice target method advice handler
    σ old σ1 old' σ2 :
  before AOP target method advice σ = (Return old, σ1) →
  handle AOP target method handler σ1 = (Return old', σ2) →
  ∀ σi, later σ2 σi →
  ∀ n r A E σa,
    let w1 := member σ1 target method in
    let w2 := member σ2 target method in
    let entry := alloc (arguments_object A) (log (Called w2 r A) σi) in
    call natives n advice r A (log (Called w1 r A) entry.2)
      = Some (Throw E, σa) →
    call natives (S (S n)) w2 r A σi =
      match call natives (S n) handler r [E; VRef entry.1] σa with
      | Some (Return _, σ3) => Some (Return VUndefined, σ3)
      | other => other
      end.
Proof.
  intros Hwrap1 Hwrap2 σi Hlater n r A E σa w1 w2 entry Hadvice.
  pose proof (wrap_later Handle _ _ _ _ _ _ _ Hwrap2) as Hlater12.
  destruct (wrap_success _ Handle _ _ _ _ _ _ Hwrap2)
    as (l2 & o2 & _ & _ & _ & _ & _ & Hold' & _ & _).
  assert (old' = w1) as -> by exact Hold'.
  pose proof (wrapper_persists AOP Handle _ _ _ _ _ _ _ Hwrap2 Hlater)
    as Hcode2.
  fold w2 in Hcode2. simpl wrapper_code in Hcode2.
  assert (later σ1 entry.2) as Hlater1.
  { eapply later_trans; [exact Hlater12 |].
    eapply later_trans; [exact Hlater |].
    eapply later_trans; [apply later_log | apply later_alloc]. }
  pose proof (wrapper_persists AOP Before _ _ _ _ _ _ _ Hwrap1 Hlater1)
    as Hcode1.
  fold w1 in Hcode1. simpl wrapper_code in Hcode1.
  rewrite call_S. unfold apply at 1. rewrite Hcode2. cbv beta iota zeta.
  fold entry. destruct entry as [la σb]. cbn [fst snd] in *.
  rewrite call_S. unfold apply at 1. rewrite Hcode1. cbv beta iota zeta.
  rewrite Hadvice. reflexivity.
Qed.

(** X12.  Two [after] wraps of the same method in a row: an invocation
    applies the underlying original first, then the advice wrapped first
    to its result, then the advice wrapped last to the result of that;
    the trace records the invocations in that order. *)
Theorem chained_after_composes target method advice1 advice2
    σ old σ1 old' σ2 :
  after AOP target method advice1 σ = (Return old, σ1) →
  after AOP target method advice2 σ1 = (Return old', σ2) →
  ∀ σi, later σ2 σi →
  ∀ n r A v σa v1 σb,
    let w1 := member σ1 target method in
    let w2 := member σ2 target method in
    call natives n old r A (log (Called w1 r A) (log (Called w2 r A) σi))
      = Some (Return v, σa) →
    call natives n advice1 r [v] σa = Some (Return v1, σb) →
    call natives (S (S n)) w2 r A σi = call natives (S n) advice2 r [v1] σb
    ∧ ∃ evs0 evs1,
        trace σb =
          trace σi ++ Called w2 r A :: Called w1 r A :: Called old r A :: evs0
            ++ Called advice1 r [v] :: evs1.
Proof.
  intros Hwrap1 Hwrap2 σi Hlater n r A v σa v1 σb w1 w2 Hold Hadvice1.
  pose proof (wrap_later After _ _ _ _ _ _ _ Hwrap1) as Hlater01.
  pose proof (wrap_later After _ _ _ _ _ _ _ Hwrap2) as Hlater12.
  destruct (wrap_success _ After _ _ _ _ _ _ Hwrap1)
    as (l1 & o1 & _ & _ & _ & Hfun1 & _ & _ & _ & _).
  destruct (wrap_success _ After _ _ _ _ _ _ Hwrap2)
    as (l2 & o2 & _ & _ & _ & _ & _ & Hold' & _ & _).
  assert (old' = w1) as -> by exact Hold'.
  pose proof (wrapper_persists AOP After _ _ _ _ _ _ _ Hwrap2 Hlater)
    as Hcode2.
  fold w2 in Hcode2. simpl wrapper_code in Hcode2.
  assert (later σ1 (log (Called w2 r A) σi)) as Hlater1.
  { eapply later_trans; [exact Hlater12 |].
    eapply later_trans; [exact Hlater | apply later_log]. }
  pose proof (wrapper_persists AOP After _ _ _ _ _ _ _ Hwrap1 Hlater1)
    as Hcode1.
  fold w1 in Hcode1. simpl wrapper_code in Hcode1.
  pose proof (call_later _ _ _ _ _ _ _ _ Hold) as Hσa.
  split.
  - rewrite call_S. unfold apply at 1. rewrite Hcode2. cbv beta iota zeta.
    rewrite call_S. unfold apply at 1. rewrite Hcode1. cbv beta iota zeta.
    rewrite Hold, Hadvice1. reflexivity.
  - destruct (call_returns_recorded _ _ _ _ _ _ _ _ _ Hold) as [evs0 Ht0].
    destruct (call_recorded _ _ _ _ _ _ _ _ Hadvice1) as [evs1 Ht1].
    { eapply callable_later; [exact Hfun1 |].
      destruct Hlater01 as [H01 _]. destruct Hlater1 as [H1 _].
      destruct Hσa as [Ha _]. rewrite extends_log in Ha.
      eapply extends_trans; [exact H01 |].
      eapply extends_trans; [exact H1 | exact Ha]. }
    exists evs0, evs1. rewrite Ht1, Ht0. unfold log at 1. simpl trace.
    rewrite <- !app_assoc. reflexivity.
Qed.

End Propagation.

(** ** The further properties, run *)

Lemma result_eta (r : result) c : r.1 = c → r = (c, r.2).
Proof. destruct r. simpl. congruence. Qed.

Lemma validation_order_witness :
  (typeof (heap_of example_state) target ≠ TObject →
     before example_AOP target (PString "missing") upper example_state
       = (Throw (InvalidObject example_AOP), example_state))
  ∧ (typeof (heap_of example_state) target = TObject →
     typeof (heap_of example_state) upper ≠ TFunction →
     before example_AOP target (PString "missing") upper example_state
       = (Throw (InvalidAspect example_AOP), example_state))
  ∧ (typeof (heap_of example_state) target = TObject →
     typeof (heap_of example_state) upper = TFunction →
     truthy (PString "missing") = false
     ∨ member example_state target (PString "missing") = VUndefined →
     before example_AOP target (PString "missing") upper example_state
       = (Throw (InvalidMethod example_AOP), example_state)).
Proof.
  apply (validation_order Before example_AOP target (PString "missing")
           upper example_state).
  discriminate.
Defined.

Lemma wrap_failure_touches_nothing_witness :
  trace (before example_AOP VNull (PString "greet") upper example_state).2
    = trace example_state
  ∧ (∀ l o, heap_of example_state !! l = Some o →
       heap_of (before example_AOP VNull (PString "greet") upper
                  example_state).2 !! l = Some o)
  ∧ (length (heap_of (before example_AOP VNull (PString "greet") upper
                        example_state).2)
     ≤ S (length (heap_of example_state)))%nat.
Proof.
  apply (wrap_failure_touches_nothing Before example_AOP VNull
           (PString "greet") upper example_state
           (VRef (length (heap_of example_state)))).
  apply result_eta. vm_compute. reflexivity.
Defined.

(** A [null] target: the TypeError object is the only new object. *)
Example null_target_leaves_heap :
  heap_of (before example_AOP VNull (PString "greet") upper example_state).2
    = heap_of example_state ++ [Object (ErrorC "TypeError") ∅ None].
Proof. vm_compute. reflexivity. Qed.

Lemma wrap_changes_one_slot_witness :
  ∃ l o,
    target = VRef l ∧ heap_of example_state !! l = Some o
    ∧ heap_of (wrapped Before "greet" upper) !! l =
        Some (Object (cls o)
                (<[to_key (PString "greet") :=
                     VRef (length (heap_of example_state))]> (props o))
                (proto o))
    ∧ heap_of (wrapped Before "greet" upper)
        !! length (heap_of example_state) =
        Some (Object (FunctionC (wrapper_code Before greet upper)) ∅ None)
    ∧ length (heap_of (wrapped Before "greet" upper))
        = S (length (heap_of example_state))
    ∧ (∀ l', l' ≠ l → (l' < length (heap_of example_state))%nat →
         heap_of (wrapped Before "greet" upper) !! l'
           = heap_of example_state !! l')
    ∧ trace (wrapped Before "greet" upper) = trace example_state.
Proof.
  apply (wrap_changes_one_slot Before example_AOP target (PString "greet")
           upper example_state greet (wrapped Before "greet" upper)).
  apply (example_wrap Before). vm_compute. reflexivity.
Defined.

Lemma restore_original_witness :
  ∃ σ'',
    set target (PString "greet") greet (wrapped Around "greet" silent)
      = (Return greet, σ'')
    ∧ member σ'' target (PString "greet") = greet
    ∧ (∀ l o, target = VRef l → heap_of example_state !! l = Some o →
         props o !! to_key (PString "greet") = Some greet →
         heap_of σ'' !! l = Some o).
Proof.
  apply (restore_original Around example_AOP target (PString "greet")
           silent example_state greet (wrapped Around "greet" silent)).
  apply (example_wrap Around). vm_compute. reflexivity.
Defined.

(** After the slot is restored, [greet("ann")] is the original again. *)
Example greet_restored :
  fst <$> call example_natives 3
            (member (set target (PString "greet") greet
                       (wrapped Around "greet" silent)).2
               target (PString "greet"))
            target [VString "ann"]
            (set target (PString "greet") greet
               (wrapped Around "greet" silent)).2
  = Some (Return (VString "Hello, ann")).
Proof. vm_compute. reflexivity. Qed.

Lemma wrap_shadows_inherited_method_witness :
  VRef 0 = VRef 0
  ∧ heap_of (before shared_AOP (VRef 2) (PString "greet") (VRef 4)
               shared_state).2 !! 1%nat
    = Some (Object Ordinary {[ "greet" := VRef 0 ]} None)
  ∧ member (before shared_AOP (VRef 2) (PString "greet") (VRef 4)
              shared_state).2 (VRef 2) (PString "greet")
    = VRef (length (heap_of shared_state))
  ∧ (∀ l' o', l' ≠ 2%nat → heap_of shared_state !! l' = Some o' →
       props o' !! to_key (PString "greet") = None →
       proto o' = Some 1%nat →
       member (before shared_AOP (VRef 2) (PString "greet") (VRef 4)
                 shared_state).2 (VRef l') (PString "greet") = VRef 0).
Proof.
  apply (wrap_shadows_inherited_method Before shared_AOP 2%nat
           (PString "greet") (VRef 4) shared_state (VRef 0)
           (before shared_AOP (VRef 2) (PString "greet") (VRef 4)
              shared_state).2
           (Object Ordinary ∅ (Some 1%nat)) 1%nat
           (Object Ordinary {[ "greet" := VRef 0 ]} None) (VRef 0)).
  - apply result_eta. vm_compute. reflexivity.
  - vm_compute. reflexivity.
  - vm_compute. reflexivity.
  - reflexivity.
  - vm_compute. reflexivity.
  - vm_compute. reflexivity.
Defined.

(** The sibling object still greets plainly; the wrapped one shouts. *)
Example sibling_keeps_inherited_greet :
  let σ' := (before shared_AOP (VRef 2) (PString "greet") (VRef 4)
               shared_state).2 in
  (fst <$> call example_natives 3 (member σ' (VRef 3) (PString "greet"))
             (VRef 3) [VString "ann"] σ',
   fst <$> call example_natives 3 (member σ' (VRef 2) (PString "greet"))
             (VRef 2) [VString "ann"] σ')
  = (Some (Return (VString "Hello, ann")),
     Some (Return (VString "Hello, ANN"))).
Proof. vm_compute. reflexivity. Qed.

Lemma before_advice_throws_witness :
  call example_natives 3
    (member (wrapped Before "greet" fail) target (PString "greet"))
    target [VString "boom"] (wrapped Before "greet" fail)
  = Some (Throw (VString "boom"),
          log (Called fail target [VString "boom"])
            (log (Called (member (wrapped Before "greet" fail) target
                            (PString "greet")) target [VString "boom"])
               (wrapped Before "greet" fail))).
Proof.
  apply (before_advice_throws example_natives example_AOP target
           (PString "greet") fail example_state greet
           (wrapped Before "greet" fail) (wrapped Before "greet" fail)
           2%nat target [VString "boom"]).
  - apply (example_wrap Before). vm_compute. reflexivity.
  - apply later_refl.
  - vm_compute. reflexivity.
Defined.

Lemma after_original_throws_witness :
  call example_natives 3
    (member (wrapped After "fail" upper) target (PString "fail"))
    target [VString "boom"] (wrapped After "fail" upper)
  = Some (Throw (VString "boom"),
          log (Called fail target [VString "boom"])
            (log (Called (member (wrapped After "fail" upper) target
                            (PString "fail")) target [VString "boom"])
               (wrapped After "fail" upper))).
Proof.
  apply (after_original_throws example_natives example_AOP target
           (PString "fail") upper example_state fail
           (wrapped After "fail" upper) (wrapped After "fail" upper)
           2%nat target [VString "boom"]).
  - apply (example_wrap After). vm_compute. reflexivity.
  - apply later_refl.
  - vm_compute. reflexivity.
Defined.

Lemma before_array_result_spreads_witness :
  ∃ a σ1,
    call example_natives 2 swap target [VString "ann"; VString "bob"]
      (log (Called (member (wrapped Before "greet" swap) target
                      (PString "greet")) target
              [VString "ann"; VString "bob"])
         (wrapped Before "greet" swap))
      = Some (Return (VRef a), σ1)
    ∧ heap_of σ1 !! a = Some (array_object [VString "bob"; VString "ann"])
    ∧ call example_natives 3
        (member (wrapped Before "greet" swap) target (PString "greet"))
        target [VString "ann"; VString "bob"] (wrapped Before "greet" swap)
      = call example_natives 2 greet target [VString "bob"; VString "ann"] σ1.
Proof.
  eexists _, _. split; [vm_compute; reflexivity |].
  split; [vm_compute; reflexivity |].
  refine (before_array_result_spreads example_natives example_AOP target
            (PString "greet") swap example_state greet
            (wrapped Before "greet" swap) (wrapped Before "greet" swap)
            2%nat target [VString "ann"; VString "bob"] _
            (array_object [VString "bob"; VString "ann"])
            [VString "bob"; VString "ann"] _ _ (later_refl _) _ _ _ _).
  - apply (example_wrap Before). vm_compute. reflexivity.
  - vm_compute. reflexivity.
  - vm_compute. reflexivity.
  - reflexivity.
  - reflexivity.
Defined.

Lemma handle_reports_uncallable_member_witness :
  (λ res, (res.1, trace res.2,
           cls <$> heap_of res.2 !! S (S (length (heap_of example_state))),
           list_from_array_like (heap_of res.2)
             (VRef (S (length (heap_of example_state)))))) <$>
    call example_natives 3
      (member (wrapped Handle "count" silent) target (PString "count"))
      target [VString "ann"] (wrapped Handle "count" silent)
  = Some (Return VUndefined,
          [Called (member (wrapped Handle "count" silent) target
                     (PString "count")) target [VString "ann"];
           Called silent target
             [VRef (S (S (length (heap_of example_state))));
              VRef (S (length (heap_of example_state)))]],
          Some (ErrorC "TypeError"),
          [VString "ann"]).
Proof.
  destruct (handle_reports_uncallable_member example_natives example_AOP
              target (PString "count") silent example_state (PNum 5)
              (wrapped Handle "count" silent)
              ltac:(apply (example_wrap Handle); vm_compute; reflexivity)
              _ (later_refl _) 1%nat target [VString "ann"])
    as (_ & Hcall & _ & _).
  rewrite Hcall. vm_compute. reflexivity.
Defined.

(** The handler of a wrapped data member is invoked on every call. *)
Example count_handled :
  (λ r, (r.1, callee <$> trace r.2)) <$>
    call example_natives 3
      (member (wrapped Handle "count" silent) target (PString "count"))
      target [VString "ann"] (wrapped Handle "count" silent)
  = Some (Return VUndefined,
          [member (wrapped Handle "count" silent) target (PString "count");
           silent]).
Proof. vm_compute. reflexivity. Qed.

Lemma after_over_uncallable_member_witness :
  let w := member (wrapped After "count" upper) target (PString "count") in
  call example_natives 3 w target [VString "ann"]
    (wrapped After "count" upper)
  = Some (throw_type_error
            (log (Called w target [VString "ann"])
               (wrapped After "count" upper))).
Proof.
  apply (after_over_uncallable_member example_natives example_AOP target
           (PString "count") upper example_state (PNum 5)
           (wrapped After "count" upper)).
  - apply (example_wrap After). vm_compute. reflexivity.
  - apply later_refl.
Defined.

Lemma handle_catches_throw_of_inner_advice_witness :
  let w1 := member (wrapped Before "greet" fail) target (PString "greet") in
  let w2 := member guarded target (PString "greet") in
  let entry :=
    alloc (arguments_object [VString "boom"])
      (log (Called w2 target [VString "boom"]) guarded) in
  ∃ σa,
    call example_natives 1 fail target [VString "boom"]
      (log (Called w1 target [VString "boom"]) entry.2)
      = Some (Throw (VString "boom"), σa)
    ∧ call example_natives 3 w2 target [VString "boom"] guarded =
        match call example_natives 2 silent target
                [VString "boom"; VRef entry.1] σa with
        | Some (Return _, σ3) => Some (Return VUndefined, σ3)
        | other => other
        end.
Proof.
  intros w1 w2 entry.
  pose proof (handle_catches_throw_of_inner_advice example_natives
                example_AOP target (PString "greet") fail silent
                example_state greet (wrapped Before "greet" fail) w1 guarded
                ltac:(apply (example_wrap Before); vm_compute; reflexivity)
                ltac:(apply result_eta; vm_compute; reflexivity)
                guarded (later_refl _) 1%nat target [VString "boom"])
    as Hcatch.
  cbv zeta in Hcatch. fold w1 w2 in Hcatch. fold entry in Hcatch.
  destruct (call example_natives 1 fail target [VString "boom"]
              (log (Called w1 target [VString "boom"]) entry.2))
    as [[[v | E] σa] |] eqn:Hfail;
    try (vm_compute in Hfail; discriminate Hfail).
  exists σa.
  assert (E = VString "boom") as ->.
  { vm_compute in Hfail. congruence. }
  split; [reflexivity |].
  apply Hcatch. reflexivity.
Defined.

(** [greet("boom")] when guarded: the underlying [greet] is never invoked. *)
Example greet_guarded :
  (λ r, (r.1, callee <$> trace r.2)) <$>
    call example_natives 3 (member guarded target (PString "greet"))
      target [VString "boom"] guarded
  = Some (Return VUndefined,
          [member guarded target (PString "greet");
           member (wrapped Before "greet" fail) target (PString "greet");
           fail; silent]).
Proof. vm_compute. reflexivity. Qed.

Lemma chained_after_composes_witness :
  let w1 := member (wrapped After "greet" upper) target (PString "greet") in
  let w2 := member chained_after target (PString "greet") in
  ∃ v σa v1 σb,
    call example_natives 1 greet target [VString "ann"]
      (log (Called w1 target [VString "ann"])
         (log (Called w2 target [VString "ann"]) chained_after))
      = Some (Return v, σa)
    ∧ call example_natives 1 upper target [v] σa = Some (Return v1, σb)
    ∧ v1 = VString "HELLO, ANN"
    ∧ call example_natives 3 w2 target [VString "ann"] chained_after
      = call example_natives 2 silent target [v1] σb.
Proof.
  intros w1 w2.
  eexists _, _, _, _. split; [vm_compute; reflexivity |].
  split; [vm_compute; reflexivity |]. split; [reflexivity |].
  refine (proj1
    (chained_after_composes example_natives example_AOP target
       (PString "greet") upper silent example_state greet
       (wrapped After "greet" upper) w1 chained_after _ _
       chained_after (later_refl _) 1%nat target [VString "ann"]
       _ _ _ _ _ _)).
  - apply (example_wrap After). vm_compute. reflexivity.
  - apply result_eta. vm_compute. reflexivity.
  - vm_compute. reflexivity.
  - vm_compute. reflexivity.
Defined.

(** The order of the invocations under two [after] wraps. *)
Example greet_chained_after :
  (λ r, (r.1, callee <$> trace r.2)) <$>
    call example_natives 3 (member chained_after target (PString "greet"))
      target [VString "ann"] chained_after
  = Some (Return VUndefined,
          [member chained_after target (PString "greet");
           member (wrapped After "greet" upper) target (PString "greet");
           greet; upper; silent]).
Proof. vm_compute. reflexivity. Qed.
